(** * Stable marriage solver: a shallow embedding of
      [random-stable-marriage-solver.c] and the properties of its
      preference generator and of its deferred-acceptance loop.

    C [int] values are integers of [Z]; every arithmetic operation of the
    program stays between [-1] and [n] (or below [RAND_MAX]), so no signed
    overflow is involved; the one conversion to [int], of the result of
    [atoi], is written out.  C arrays are lists; an access outside the
    bounds of an array is undefined behaviour in C and is a fault ([None])
    here; the cells of an array that is declared and not yet written hold
    arbitrary values. *)

From Stdlib Require Import ZArith Lia Ascii String.
From stdpp Require Import base tactics option numbers list strings pretty relations.

Local Open Scope Z_scope.

(** ** Arrays with checked accesses *)

Module Arr.

Definition rd {A} (a : list A) (i : Z) : option A :=
  if decide (0 <= i) then a !! Z.to_nat i else None.

Definition wr {A} (a : list A) (i : Z) (v : A) : option (list A) :=
  if decide (0 <= i < Z.of_nat (length a))
  then Some (<[Z.to_nat i := v]> a) else None.

(** [a[i][j]] of a two-dimensional array *)
Definition rd2 {A} (a : list (list A)) (i j : Z) : option A :=
  row ← rd a i; rd row j.

(** [a[i][j] = v] *)
Definition wr2 {A} (a : list (list A)) (i j : Z) (v : A) : option (list (list A)) :=
  row ← rd a i; row' ← wr row j v; wr a i row'.

End Arr.
Import Arr.

(** ** Counted loops

    [for_loop k i body st] runs [k] iterations of
    [for (; ; i++) body], the first with loop variable [i];
    [for_range n body st] is [for (int i = 0; i < n; i++) body]. *)

Fixpoint for_loop {St} (k : nat) (i : Z) (body : Z -> St -> option St) (st : St)
  : option St :=
  match k with
  | O => Some st
  | S k' =>
      match body i st with
      | Some st' => for_loop k' (i + 1) body st'
      | None => None
      end
  end.

Definition for_range {St} (n : Z) (body : Z -> St -> option St) (st : St) : option St :=
  for_loop (Z.to_nat n) 0 body st.

(** ** Arrays as declared

    The arrays of lines 33-41 are automatic and not initialised: when
    they are declared every cell holds an arbitrary value.  [uninit]
    gives that value for each cell of each array (for the two tables, at
    a row and a column). *)
Record uninit := mkUninit {
  u_seller_prefs : nat -> nat -> Z;
  u_buyer_prefs : nat -> nat -> Z;
  u_seller_next_choices : nat -> Z;
  u_buyer_final_prefs : nat -> Z;
  u_seller_matches : nat -> Z;
  u_buyer_matches : nat -> Z;
  u_randlist : nat -> Z
}.

(** An array of [n] cells, and a table of [n] rows of [n] cells, with the
    given contents. *)
Definition cells (f : nat -> Z) (n : Z) : list Z := f <$> seq 0 (Z.to_nat n).

Definition cells2 (f : nat -> nat -> Z) (n : Z) : list (list Z) :=
  (fun i => cells (f i) n) <$> seq 0 (Z.to_nat n).

(** ** The matching engine (lines 59-109 of the source) *)

(** The arrays and scalars the proposal loop mutates.  [curr_seller_rank]
    is declared outside the loop and only assigned when the rank scan finds
    the seller, so its value survives from one proposal to the next.
    [proposals] is not a variable of the program: it records, newest
    first, every proposal (seller, buyer) the loop makes. *)
Record state := mkState {
  seller_next_choices : list Z;
  buyer_final_prefs : list Z;
  seller_matches : list Z;
  buyer_matches : list Z;
  bachelor_count : Z;
  curr_seller_rank : Z;
  proposals : list (Z * Z)
}.

Inductive outcome :=
| Finished (st : state)
| Fault
| OutOfFuel.

Section Engine.

Variable n : Z.
Variable seller_prefs buyer_prefs : list (list Z).

(** Lines 59-64: one iteration of the initialisation loop. *)
Definition init_body (i : Z) (st : state) : option state :=
  snc ← wr (seller_next_choices st) i 0;
  bfp ← wr (buyer_final_prefs st) i (-1);
  sm ← wr (seller_matches st) i (-1);
  bm ← wr (buyer_matches st) i (-1);
  Some (mkState snc bfp sm bm (bachelor_count st) (curr_seller_rank st)
          (proposals st)).

(** The four arrays as declared at lines 35-38: [n] cells each, whose
    contents [junk] are indeterminate until the initialisation loop
    writes them. *)
Definition declared (junk : uninit) : state :=
  mkState (cells (u_seller_next_choices junk) n)
    (cells (u_buyer_final_prefs junk) n)
    (cells (u_seller_matches junk) n)
    (cells (u_buyer_matches junk) n) n (-1) [].

(** Lines 59-72. *)
Definition init_state (junk : uninit) : option state :=
  for_range n init_body (declared junk).

(** Lines 81-85: the scan for the rank of [curr_seller] in the list of
    [curr_buyer]. *)
Definition rank_body (curr_buyer curr_seller : Z) (j : Z) (rank : Z) : option Z :=
  v ← rd2 buyer_prefs curr_buyer j;
  Some (if decide (v = curr_seller) then j else rank).

Definition rank_scan (curr_buyer curr_seller : Z) (rank : Z) : option Z :=
  for_range n (rank_body curr_buyer curr_seller) rank.

(** Lines 76-107: the body of the loop over sellers. *)
Definition propose (curr_seller : Z) (st : state) : option state :=
  m ← rd (seller_matches st) curr_seller;
  if decide (m = -1) then
    c ← rd (seller_next_choices st) curr_seller;
    curr_buyer ← rd2 seller_prefs curr_seller c;
    snc ← wr (seller_next_choices st) curr_seller (c + 1);
    other_seller ← rd (buyer_matches st) curr_buyer;
    rank ← rank_scan curr_buyer curr_seller (curr_seller_rank st);
    let log := (curr_seller, curr_buyer) :: proposals st in
    if decide (other_seller = -1) then
      bfp ← wr (buyer_final_prefs st) curr_buyer rank;
      bm ← wr (buyer_matches st) curr_buyer curr_seller;
      sm ← wr (seller_matches st) curr_seller curr_buyer;
      Some (mkState snc bfp sm bm (bachelor_count st - 1) rank log)
    else
      other_seller_rank ← rd (buyer_final_prefs st) curr_buyer;
      if decide (rank < other_seller_rank) then
        bfp ← wr (buyer_final_prefs st) curr_buyer rank;
        bm ← wr (buyer_matches st) curr_buyer curr_seller;
        sm ← wr (seller_matches st) curr_seller curr_buyer;
        sm' ← wr sm other_seller (-1);
        Some (mkState snc bfp sm' bm (bachelor_count st) rank log)
      else
        Some (mkState snc (buyer_final_prefs st) (seller_matches st)
                (buyer_matches st) (bachelor_count st) rank log)
  else Some st.

(** Lines 75-108: one round, every seller in increasing order. *)
Definition round (st : state) : option state :=
  for_range n propose st.

(** Lines 74-109: [while (bachelor_count > 0)]; [fuel] bounds the number
    of rounds. *)
Fixpoint while_loop (fuel : nat) (st : state) : outcome :=
  if decide (bachelor_count st > 0) then
    match fuel with
    | O => OutOfFuel
    | S fuel' =>
        match round st with
        | Some st' => while_loop fuel' st'
        | None => Fault
        end
    end
  else Finished st.

(** Lines 59-109. *)
Definition engine (fuel : nat) (junk : uninit) : outcome :=
  match init_state junk with
  | Some st => while_loop fuel st
  | None => Fault
  end.

End Engine.

(** ** The preference generator (lines 10-17 and 40-55) *)

Section Generator.

(** [RAND_MAX] of the C library, and the values the successive calls of
    [rand()] return after [srand(time(...))]. *)
Variable RAND_MAX : Z.
Variable rand : nat -> Z.

(** Lines 12-15: one iteration of the Fisher-Yates loop; the state is the
    array and the number of calls of [rand()] made so far.  C's [/] on
    [int] is [Z.quot]. *)
Definition shuffle_body (n : Z) (i : Z) (st : list Z * nat) : option (list Z * nat) :=
  let j := i + Z.quot (rand st.2) (Z.quot RAND_MAX (n - i) + 1) in
  t ← rd st.1 j;
  ai ← rd st.1 i;
  a1 ← wr st.1 j ai;
  a2 ← wr a1 i t;
  Some (a2, S st.2).

(** Lines 10-17. *)
Definition shuffle_array (array : list Z) (n : Z) (calls : nat)
  : option (list Z * nat) :=
  for_range (n - 1) (shuffle_body n) (array, calls).

Record gen_state := mkGen {
  g_randlist : list Z;
  g_seller_prefs : list (list Z);
  g_buyer_prefs : list (list Z);
  g_calls : nat
}.

(** Lines 48-50 and 52-54: copy [randlist] into row [i] of a table. *)
Definition copy_row (n : Z) (randlist : list Z) (i : Z) (table : list (list Z))
  : option (list (list Z)) :=
  for_range n (fun j tbl => v ← rd randlist j; wr2 tbl i j v) table.

(** Lines 47-54: one iteration of the generation loop. *)
Definition gen_body (n : Z) (i : Z) (g : gen_state) : option gen_state :=
  r1 ← shuffle_array (g_randlist g) n (g_calls g);
  sp ← copy_row n r1.1 i (g_seller_prefs g);
  r2 ← shuffle_array r1.1 n r1.2;
  bp ← copy_row n r2.1 i (g_buyer_prefs g);
  Some (mkGen r2.1 sp bp r2.2).

(** Lines 33-34 and 41-44: the tables as declared, and [randlist] set to
    the identity sequence. *)
Definition gen_init (n : Z) (junk : uninit) : option gen_state :=
  rl ← for_range n (fun i a => wr a i i) (cells (u_randlist junk) n);
  Some (mkGen rl (cells2 (u_seller_prefs junk) n)
          (cells2 (u_buyer_prefs junk) n) O).

(** Lines 41-55. *)
Definition generate (n : Z) (junk : uninit) : option gen_state :=
  g ← gen_init n junk; for_range n (gen_body n) g.

(** ** The program (lines 19-136) *)

(** [atoi] of the C library, which the program stores in the [int] [n].
    As in glibc with a 64-bit [long], [atoi(s)] is [(int) strtol(s, NULL,
    10)]: optional white space, an optional sign, then the longest run of
    decimal digits (0 when there is no digit); [strtol] saturates at the
    bounds of [long], and the conversion to [int] keeps the low 32 bits
    in two's complement. *)
Definition is_space (c : ascii) : bool :=
  bool_decide (c ∈ [" "; "009"; "010"; "011"; "012"; "013"]%char).

Definition digit_of (c : ascii) : option Z :=
  let k := Z.of_nat (nat_of_ascii c) in
  if decide (48 <= k <= 57) then Some (k - 48) else None.

Fixpoint skip_spaces (s : string) : string :=
  match s with
  | String c s' => if is_space c then skip_spaces s' else s
  | EmptyString => s
  end.

Fixpoint digits (acc : Z) (s : string) : Z :=
  match s with
  | String c s' =>
      match digit_of c with
      | Some d => digits (10 * acc + d) s'
      | None => acc
      end
  | EmptyString => acc
  end.

(** Whether the text has a minus sign after its white space, and what
    follows the white space and the sign. *)
Definition negative (s : string) : bool :=
  match skip_spaces s with
  | String "-"%char _ => true
  | _ => false
  end.

Definition unsigned_part (s : string) : string :=
  match skip_spaces s with
  | String "-"%char s' => s'
  | String "+"%char s' => s'
  | s' => s'
  end.

Definition clamp_long (z : Z) : Z := Z.max (- 2 ^ 63) (Z.min (2 ^ 63 - 1) z).

Definition to_int (z : Z) : Z := (z + 2 ^ 31) `mod` 2 ^ 32 - 2 ^ 31.

Definition strtol (s : string) : Z :=
  let v := digits 0 (unsigned_part s) in
  clamp_long (if negative s then - v else v).

Definition atoi (s : string) : Z := to_int (strtol s).

(** The text [atoi] converts starts with a digit. *)
Definition starts_with_digit (s : string) : bool :=
  match unsigned_part s with
  | String c _ => bool_decide (is_Some (digit_of c))
  | EmptyString => false
  end.

(** Lines 25-31: [None] is the usage message followed by [exit(1)];
    [argc] is the length of [argv]. *)
Definition parse_args (argv : list string) : option Z :=
  let argc := length argv in
  if decide (argc = 1%nat) then None
  else if decide (argc = 2%nat) then
    match argv !! 1%nat with
    | Some a => Some (atoi a)
    | None => Some 0
    end
  else Some 0.

Definition newline : string := String "010"%char EmptyString.

Definition usage_message : string := "Usage: ./sm <value for n>" +:+ newline.

(** Lines 113-119 and 121-127. *)
Definition print_prefs (who : string) (n : Z) (prefs : list (list Z)) (out : string)
  : option string :=
  for_range n (fun i out =>
    out' ← for_range n (fun j o => v ← rd2 prefs i j; Some (o +:+ pretty v +:+ " "))
             (out +:+ who +:+ " " +:+ pretty i +:+ ": ");
    Some (out' +:+ newline)) out.

(** Lines 129-131. *)
Definition print_matches (n : Z) (seller_matches : list Z) (out : string)
  : option string :=
  for_range n (fun i o =>
    b ← rd seller_matches i;
    Some (o +:+ "seller " +:+ pretty i +:+ " with buyer " +:+ pretty b +:+ ";    ")) out.

(** Lines 112-132; the line with the elapsed wall-clock time (134) is left
    out. *)
Definition report (n : Z) (sp bp : list (list Z)) (st : state) : option string :=
  o1 ← print_prefs "seller" n sp ("Pref lists - sellers" +:+ newline);
  o2 ← print_prefs "buyer" n bp (o1 +:+ "Pref lists - buyers" +:+ newline);
  o3 ← print_matches n (seller_matches st)
         (o2 +:+ "Matches, ordered by both proposers and receivers." +:+ newline);
  Some (o3 +:+ newline).

(** What a run of the program amounts to: its exit status, what it wrote
    to standard output, and the state the proposal loop ended in ([None]
    when the loop was never reached). *)
Inductive exit :=
| Exited (code : Z) (out : string) (final : option state)
| Crashed
| TimedOut.

(** Lines 32-135, for a given [n].  Declaring the arrays of lines 33-41
    with a negative size is undefined behaviour. *)
Definition run (fuel : nat) (junk : uninit) (n : Z) : exit :=
  if decide (n < 0) then Crashed else
  match generate n junk with
  | None => Crashed
  | Some g =>
      match engine n (g_seller_prefs g) (g_buyer_prefs g) fuel junk with
      | Finished st =>
          match report n (g_seller_prefs g) (g_buyer_prefs g) st with
          | Some out => Exited 0 out (Some st)
          | None => Crashed
          end
      | Fault => Crashed
      | OutOfFuel => TimedOut
      end
  end.

(** Lines 19-136. *)
Definition main (fuel : nat) (junk : uninit) (argv : list string) : exit :=
  match parse_args argv with
  | None => Exited 1 usage_message None
  | Some n => run fuel junk n
  end.

End Generator.

(** What the program prints for [n = 0]: the three headings and an empty
    line of matches. *)
Definition empty_report : string :=
  "Pref lists - sellers" +:+ newline +:+
  "Pref lists - buyers" +:+ newline +:+
  "Matches, ordered by both proposers and receivers." +:+ newline +:+ newline.

(** ** Specification vocabulary *)

(** A preference list over [n] participants: a permutation of [0, n). *)
Definition is_perm (n : Z) (row : list Z) : Prop := row ≡ₚ seqZ 0 n.

(** An [n] by [n] table of preference lists. *)
Definition valid_prefs (n : Z) (prefs : list (list Z)) : Prop :=
  length prefs = Z.to_nat n ∧ Forall (is_perm n) prefs.

#[global] Instance is_perm_dec n row : Decision (is_perm n row).
Proof. unfold is_perm. apply _. Defined.

#[global] Instance valid_prefs_dec n prefs : Decision (valid_prefs n prefs).
Proof. unfold valid_prefs. apply _. Defined.

(** [x] comes strictly before [y] in a preference list, and [x] comes no
    later than [y]. *)
Definition ranks_before (row : list Z) (x y : Z) : Prop :=
  ∃ i j, rd row i = Some x ∧ rd row j = Some y ∧ i < j.

Definition ranks_no_later (row : list Z) (x y : Z) : Prop :=
  ∃ i j, rd row i = Some x ∧ rd row j = Some y ∧ i <= j.

(** [(s, b)] blocks the matching [sm], [bm]: [s] is matched to another
    buyer [b'], [b] to another seller [s'], and both prefer each other. *)
Definition blocking_pair (sp bp : list (list Z)) (sm bm : list Z) (s b : Z) : Prop :=
  ∃ b' s' srow brow,
    rd sm s = Some b' ∧ b' ≠ b ∧ rd bm b = Some s' ∧ s' ≠ s ∧
    rd sp s = Some srow ∧ rd bp b = Some brow ∧
    ranks_before srow b b' ∧ ranks_before brow s s'.

Definition stable (sp bp : list (list Z)) (sm bm : list Z) : Prop :=
  ∀ s b, ¬ blocking_pair sp bp sm bm s b.

(** The two arrays are inverse bijections between sellers and buyers:
    every identifier occurs exactly once in each, and nothing else does. *)
Definition perfect_matching (n : Z) (sm bm : list Z) : Prop :=
  sm ≡ₚ seqZ 0 n ∧ bm ≡ₚ seqZ 0 n ∧
  ∀ s b, rd sm s = Some b ↔ rd bm b = Some s.

(** [dst] is what [shuffle_array] makes of [src] from the [calls]-th call
    of [rand()] on. *)
Definition shuffled_from (RAND_MAX : Z) (rand : nat → Z) (n : Z)
    (src dst : list Z) (calls : nat) : Prop :=
  ∃ calls', shuffle_array RAND_MAX rand src n calls = Some (dst, calls').

(** [row] is a shuffle of the identity sequence [0, 1, ..., n-1]. *)
Definition fresh_shuffle (RAND_MAX : Z) (rand : nat → Z) (n : Z)
    (row : list Z) : Prop :=
  ∃ calls, shuffled_from RAND_MAX rand n (seqZ 0 n) row calls.

(** The content of [randlist] when iteration [i] of the generation loop
    starts: the identity sequence for the first iteration, afterwards the
    buyer row the previous iteration produced. *)
Definition buffer_before (n : Z) (bp : list (list Z)) (i : Z) : option (list Z) :=
  if decide (i = 0) then Some (seqZ 0 n) else rd bp (i - 1).

(** ** The proposal loop: invariant and cases *)

(** Number of sellers without a buyer in the array [seller_matches]. *)
Fixpoint unmatched (sm : list Z) : Z :=
  match sm with
  | [] => 0
  | x :: sm' => (if decide (x = -1) then 1 else 0) + unmatched sm'
  end.

Section EngineSpec.

Variable n : Z.
Variable seller_prefs buyer_prefs : list (list Z).

(** The loop invariant.  [inv_rejected] is the heart of deferred
    acceptance: every buyer a seller has already proposed to holds a
    seller it ranks at least as high. *)
Record Inv (st : state) : Prop := mkInv {
  inv_len_snc : length (seller_next_choices st) = Z.to_nat n;
  inv_len_bfp : length (buyer_final_prefs st) = Z.to_nat n;
  inv_len_sm : length (seller_matches st) = Z.to_nat n;
  inv_len_bm : length (buyer_matches st) = Z.to_nat n;
  inv_cursor : ∀ s c, rd (seller_next_choices st) s = Some c → 0 <= c <= n;
  inv_sm : ∀ s b, rd (seller_matches st) s = Some b → b ≠ -1 →
      rd (buyer_matches st) b = Some s;
  inv_bm : ∀ b s, rd (buyer_matches st) b = Some s → s ≠ -1 →
      rd (seller_matches st) s = Some b;
  inv_rank : ∀ b s, rd (buyer_matches st) b = Some s → s ≠ -1 →
      ∃ r, rd (buyer_final_prefs st) b = Some r ∧ rd2 buyer_prefs b r = Some s;
  inv_last : ∀ s b, rd (seller_matches st) s = Some b → b ≠ -1 →
      ∃ c, rd (seller_next_choices st) s = Some c ∧
           rd2 seller_prefs s (c - 1) = Some b;
  inv_rejected : ∀ s c i b,
      rd (seller_next_choices st) s = Some c → 0 <= i < c →
      rd2 seller_prefs s i = Some b →
      ∃ t rt rs, rd (buyer_matches st) b = Some t ∧ t ≠ -1 ∧
                 rd (buyer_final_prefs st) b = Some rt ∧
                 rd2 buyer_prefs b rs = Some s ∧ rt <= rs;
  inv_count : bachelor_count st = unmatched (seller_matches st);
  inv_log : ∀ s b, (s, b) ∈ proposals st →
      ∃ c i, rd (seller_next_choices st) s = Some c ∧ 0 <= i < c ∧
             rd2 seller_prefs s i = Some b;
  inv_log_NoDup : NoDup (proposals st)
}.

(** What one iteration of the loop over sellers does, case by case. *)
Inductive step (s : Z) (st : state) : state → Prop :=
| step_skip m :
    rd (seller_matches st) s = Some m → m ≠ -1 →
    step s st st
| step_accept c b r snc bfp bm sm :
    rd (seller_matches st) s = Some (-1) →
    rd (seller_next_choices st) s = Some c →
    rd2 seller_prefs s c = Some b →
    rd2 buyer_prefs b r = Some s →
    rd (buyer_matches st) b = Some (-1) →
    wr (seller_next_choices st) s (c + 1) = Some snc →
    wr (buyer_final_prefs st) b r = Some bfp →
    wr (buyer_matches st) b s = Some bm →
    wr (seller_matches st) s b = Some sm →
    step s st (mkState snc bfp sm bm (bachelor_count st - 1) r
                 ((s, b) :: proposals st))
| step_switch c b r t rt snc bfp bm sm sm' :
    rd (seller_matches st) s = Some (-1) →
    rd (seller_next_choices st) s = Some c →
    rd2 seller_prefs s c = Some b →
    rd2 buyer_prefs b r = Some s →
    rd (buyer_matches st) b = Some t → t ≠ -1 →
    rd (buyer_final_prefs st) b = Some rt → r < rt →
    wr (seller_next_choices st) s (c + 1) = Some snc →
    wr (buyer_final_prefs st) b r = Some bfp →
    wr (buyer_matches st) b s = Some bm →
    wr (seller_matches st) s b = Some sm →
    wr sm t (-1) = Some sm' →
    step s st (mkState snc bfp sm' bm (bachelor_count st) r
                 ((s, b) :: proposals st))
| step_reject c b r t rt snc :
    rd (seller_matches st) s = Some (-1) →
    rd (seller_next_choices st) s = Some c →
    rd2 seller_prefs s c = Some b →
    rd2 buyer_prefs b r = Some s →
    rd (buyer_matches st) b = Some t → t ≠ -1 →
    rd (buyer_final_prefs st) b = Some rt → ¬ r < rt →
    wr (seller_next_choices st) s (c + 1) = Some snc →
    step s st (mkState snc (buyer_final_prefs st) (seller_matches st)
                 (buyer_matches st) (bachelor_count st) r
                 ((s, b) :: proposals st)).

(** After lines 59-72: cursors at 0, every other cell at the sentinel. *)
Definition initial : state :=
  let k := Z.to_nat n in
  mkState (replicate k 0) (replicate k (-1)) (replicate k (-1))
    (replicate k (-1)) n (-1) [].

(** No seller has been turned down by the buyer a given matching [msm]
    pairs it with: a seller that has already proposed to that buyer is
    held by it. *)
Definition kept_by_partner (msm : list Z) (st : state) : Prop :=
  ∀ s c i b,
    rd (seller_next_choices st) s = Some c → 0 <= i < c →
    rd2 seller_prefs s i = Some b → rd msm s = Some b →
    rd (buyer_matches st) b = Some s.

(** The control points of lines 74-109: the test of the [while], and the
    test of the [for] with its counter [curr_seller]. *)
Inductive pc :=
| AtWhile
| AtFor (curr_seller : Z).

(** One step of control between these points. *)
Inductive exec : pc * state → pc * state → Prop :=
| exec_enter st :
    bachelor_count st > 0 → exec (AtWhile, st) (AtFor 0, st)
| exec_body cs st st' :
    cs < n → propose n seller_prefs buyer_prefs cs st = Some st' →
    exec (AtFor cs, st) (AtFor (cs + 1), st')
| exec_leave cs st :
    ¬ cs < n → exec (AtFor cs, st) (AtWhile, st).

(** The configurations a run from [init] goes through. *)
Definition visited (init : state) (cfg : pc * state) : Prop :=
  rtc exec (AtWhile, init) cfg.

End EngineSpec.

Arguments inv_len_snc {n seller_prefs buyer_prefs} st _.
Arguments inv_len_bfp {n seller_prefs buyer_prefs} st _.
Arguments inv_len_sm {n seller_prefs buyer_prefs} st _.
Arguments inv_len_bm {n seller_prefs buyer_prefs} st _.
Arguments inv_cursor {n seller_prefs buyer_prefs} st _.
Arguments inv_sm {n seller_prefs buyer_prefs} st _.
Arguments inv_bm {n seller_prefs buyer_prefs} st _.
Arguments inv_rank {n seller_prefs buyer_prefs} st _.
Arguments inv_last {n seller_prefs buyer_prefs} st _.
Arguments inv_rejected {n seller_prefs buyer_prefs} st _.
Arguments inv_count {n seller_prefs buyer_prefs} st _.
Arguments inv_log {n seller_prefs buyer_prefs} st _.
Arguments inv_log_NoDup {n seller_prefs buyer_prefs} st _.

(** ** Sample tables *)

(** Two contents of the arrays as declared: zero everywhere, and a
    different value in every cell. *)
Definition zeroed : uninit :=
  mkUninit (fun _ _ => 0) (fun _ _ => 0) (fun _ => 0) (fun _ => 0)
    (fun _ => 0) (fun _ => 0) (fun _ => 0).

Definition scrambled : uninit :=
  mkUninit (fun i j => Z.of_nat (7 * i + j) - 3) (fun i j => 100 - Z.of_nat (i * j))
    (fun i => Z.of_nat i * 5 - 9) (fun i => 42 + Z.of_nat i)
    (fun i => - Z.of_nat i) (fun i => Z.of_nat (i * i) - 1)
    (fun i => 1000 - Z.of_nat i).

(** Two sellers who both rank buyer 0 first, and a buyer 0 who ranks
    seller 1 first: buyer 0 accepts seller 0 and then leaves it for
    seller 1. *)
Definition ex_sp_switch : list (list Z) := [[0; 1]; [0; 1]].
Definition ex_bp_switch : list (list Z) := [[1; 0]; [0; 1]].

(** The states of that run after the proposal of seller 0 and after the
    proposal of seller 1. *)
Definition ex_switch_first : state :=
  mkState [1; 0] [1; -1] [0; -1] [0; -1] 1 1 [(0, 0)].

Definition ex_switch_second : state :=
  mkState [1; 1] [0; -1] [-1; 0] [1; -1] 1 0 [(1, 0); (0, 0)].

(** The two sellers and two buyers of the scenario with [n = 2]. *)
Definition ex_sp2 : list (list Z) := [[1; 0]; [0; 1]].
Definition ex_bp2 : list (list Z) := [[0; 1]; [0; 1]].

(** The state of that scenario after the first proposal, of seller 0 to
    buyer 1. *)
Definition ex_after_first : state :=
  mkState [1; 0] [-1; 0] [1; -1] [-1; 0] 1 0 [(0, 1)].

(** Three sellers and buyers with two stable matchings. *)
Definition ex_sp3 : list (list Z) := [[0; 1; 2]; [1; 0; 2]; [0; 1; 2]].
Definition ex_bp3 : list (list Z) := [[1; 0; 2]; [0; 1; 2]; [0; 1; 2]].

(** ** Arrays *)

Section ArrFacts.
Context {A : Type}.
Implicit Types (a : list A) (i j : Z) (v : A).

Lemma rd_Some a i v : rd a i = Some v ↔ 0 <= i ∧ a !! Z.to_nat i = Some v.
Proof.
  unfold rd. case_decide; split; try done.
  - by intros [_ ?].
  - by intros [? _].
Qed.

Lemma rd_bound a i v : rd a i = Some v → 0 <= i < Z.of_nat (length a).
Proof.
  intros [? H]%rd_Some. apply lookup_lt_Some in H. lia.
Qed.

Lemma rd_in_range a i : 0 <= i < Z.of_nat (length a) → ∃ v, rd a i = Some v.
Proof.
  intros H. destruct (lookup_lt_is_Some_2 a (Z.to_nat i)) as [v Hv]; [lia|].
  exists v. apply rd_Some. split; [lia|done].
Qed.

Lemma rd_elem_of a i v : rd a i = Some v → v ∈ a.
Proof. intros [_ H]%rd_Some. by eapply list_elem_of_lookup_2. Qed.

Lemma elem_of_rd a v : v ∈ a → ∃ i, rd a i = Some v.
Proof.
  intros [k Hk]%list_elem_of_lookup_1. exists (Z.of_nat k).
  apply rd_Some. split; [lia|]. by rewrite Nat2Z.id.
Qed.

Lemma wr_Some a i v a' :
  wr a i v = Some a' ↔ 0 <= i < Z.of_nat (length a) ∧ a' = <[Z.to_nat i := v]> a.
Proof.
  unfold wr. case_decide; split.
  - by intros [= <-].
  - by intros [_ ->].
  - done.
  - by intros [? _].
Qed.

Lemma wr_in_range a i v :
  0 <= i < Z.of_nat (length a) → wr a i v = Some (<[Z.to_nat i := v]> a).
Proof. intros. by apply wr_Some. Qed.

Lemma wr_length a i v a' : wr a i v = Some a' → length a' = length a.
Proof. intros [_ ->]%wr_Some. apply length_insert. Qed.

Lemma rd_wr a i v a' j :
  wr a i v = Some a' → rd a' j = if decide (j = i) then Some v else rd a j.
Proof.
  intros [Hi ->]%wr_Some. unfold rd.
  case_decide as Hj; case_decide as Hij; subst; try done.
  - apply list_lookup_insert_eq. lia.
  - apply list_lookup_insert_ne. lia.
  - lia.
Qed.

Lemma rd_wr_eq a i v a' : wr a i v = Some a' → rd a' i = Some v.
Proof. intros H. rewrite (rd_wr _ _ _ _ _ H). by case_decide. Qed.

Lemma rd_wr_ne a i v a' j : wr a i v = Some a' → j ≠ i → rd a' j = rd a j.
Proof. intros H ?. rewrite (rd_wr _ _ _ _ _ H). by case_decide. Qed.

Lemma rd_ext a a' : (∀ i, rd a i = rd a' i) → a = a'.
Proof.
  intros H. apply list_eq. intros k. specialize (H (Z.of_nat k)).
  unfold rd in H. case_decide; [|lia]. by rewrite Nat2Z.id in H.
Qed.

End ArrFacts.

Lemma length_cells f n : length (cells f n) = Z.to_nat n.
Proof. unfold cells. by rewrite length_fmap, length_seq. Qed.

Lemma length_cells2 f n : length (cells2 f n) = Z.to_nat n.
Proof. unfold cells2. by rewrite length_fmap, length_seq. Qed.

Lemma cells2_row f n k row :
  rd (cells2 f n) k = Some row → length row = Z.to_nat n.
Proof.
  intros Hk%rd_elem_of. unfold cells2 in Hk.
  apply list_elem_of_fmap in Hk as (i & -> & _). apply length_cells.
Qed.

(** ** Counted loops: the invariant rule *)

Lemma for_loop_inv {St} (P : Z → St → Prop) (body : Z → St → option St) k i st :
  P i st →
  (∀ j s, i <= j < i + Z.of_nat k → P j s →
          ∃ s', body j s = Some s' ∧ P (j + 1) s') →
  ∃ st', for_loop k i body st = Some st' ∧ P (i + Z.of_nat k) st'.
Proof.
  revert i st. induction k as [|k IH]; intros i st HP Hstep.
  - exists st. split; [done|]. by replace (i + Z.of_nat 0) with i by lia.
  - destruct (Hstep i st) as (s' & Hb & HP'); [lia|done|].
    destruct (IH (i + 1) s') as (st' & Hrun & HP''); [done| |].
    + intros j s Hj. apply Hstep. lia.
    + exists st'. simpl. rewrite Hb. split; [done|].
      by replace (i + Z.of_nat (S k)) with (i + 1 + Z.of_nat k) by lia.
Qed.

Lemma for_range_inv {St} (P : Z → St → Prop) (body : Z → St → option St) n st :
  0 <= n → P 0 st →
  (∀ j s, 0 <= j < n → P j s → ∃ s', body j s = Some s' ∧ P (j + 1) s') →
  ∃ st', for_range n body st = Some st' ∧ P n st'.
Proof.
  intros Hn HP Hstep. unfold for_range.
  destruct (for_loop_inv P body (Z.to_nat n) 0 st) as (st' & ? & HP'); [done| |].
  - intros j s Hj. apply Hstep. lia.
  - exists st'. split; [done|]. by replace n with (0 + Z.of_nat (Z.to_nat n)) by lia.
Qed.

(** A loop that ran went through its iterations one after the other. *)
Lemma for_loop_split {St} (body : Z → St → option St) k1 k2 i st :
  for_loop (k1 + k2) i body st =
  st' ← for_loop k1 i body st; for_loop k2 (i + Z.of_nat k1) body st'.
Proof.
  revert i st. induction k1 as [|k1 IH]; intros i st.
  - cbn. by rewrite Z.add_0_r.
  - cbn [for_loop Nat.add]. destruct (body i st) as [s'|]; [|done].
    rewrite IH. by replace (i + 1 + Z.of_nat k1) with (i + Z.of_nat (S k1)) by lia.
Qed.

Lemma for_range_nonpos {St} (body : Z → St → option St) n st :
  n <= 0 → for_range n body st = Some st.
Proof. intros. unfold for_range. by replace (Z.to_nat n) with O by lia. Qed.

(** ** Preference lists *)

Section Perm.
Variable n : Z.

Lemma is_perm_length row : is_perm n row → length row = Z.to_nat n.
Proof. intros H. rewrite H. apply length_seqZ. Qed.

Lemma is_perm_NoDup row : is_perm n row → NoDup row.
Proof. intros H. rewrite H. apply NoDup_seqZ. Qed.

Lemma is_perm_elem row x : is_perm n row → x ∈ row ↔ 0 <= x < n.
Proof. intros H. rewrite H, elem_of_seqZ. lia. Qed.

Lemma is_perm_pos row x : is_perm n row → 0 <= x < n → ∃ p, rd row p = Some x.
Proof. intros H Hx. apply elem_of_rd. by apply is_perm_elem. Qed.

Lemma is_perm_rd row p x :
  is_perm n row → rd row p = Some x → 0 <= p < n ∧ 0 <= x < n.
Proof.
  intros H Hp. split.
  - apply rd_bound in Hp. rewrite (is_perm_length _ H) in Hp. lia.
  - apply (is_perm_elem _ _ H). by eapply rd_elem_of.
Qed.

Lemma is_perm_inj row p q x :
  is_perm n row → rd row p = Some x → rd row q = Some x → p = q.
Proof.
  intros H [? Hp]%rd_Some [? Hq]%rd_Some.
  pose proof (NoDup_lookup _ _ _ _ (is_perm_NoDup _ H) Hp Hq). lia.
Qed.

Lemma valid_prefs_row prefs i :
  valid_prefs n prefs → 0 <= i < n → ∃ row, rd prefs i = Some row ∧ is_perm n row.
Proof.
  intros [Hlen Hall] Hi. destruct (rd_in_range prefs i) as [row Hrow]; [lia|].
  exists row. split; [done|]. eapply Forall_forall; [done|]. by eapply rd_elem_of.
Qed.

Lemma valid_prefs_rd prefs i row :
  valid_prefs n prefs → rd prefs i = Some row → 0 <= i < n ∧ is_perm n row.
Proof.
  intros [Hlen Hall] Hrow. split.
  - apply rd_bound in Hrow. lia.
  - eapply Forall_forall; [done|]. by eapply rd_elem_of.
Qed.

Lemma rd2_Some {A} (a : list (list A)) i j v :
  rd2 a i j = Some v ↔ ∃ row, rd a i = Some row ∧ rd row j = Some v.
Proof.
  unfold rd2. destruct (rd a i) as [row|]; cbn; split.
  - intros Hj. by exists row.
  - by intros (row' & [= <-] & Hj).
  - done.
  - by intros (row' & [=] & _).
Qed.

Lemma valid_prefs_rd2 prefs i j v :
  valid_prefs n prefs → rd2 prefs i j = Some v →
  0 <= i < n ∧ 0 <= j < n ∧ 0 <= v < n.
Proof.
  intros Hv (row & Hrow & Hj)%rd2_Some.
  destruct (valid_prefs_rd _ _ _ Hv Hrow) as [? Hp].
  destruct (is_perm_rd _ _ _ Hp Hj). done.
Qed.

Lemma valid_prefs_pos prefs i x :
  valid_prefs n prefs → 0 <= i < n → 0 <= x < n → ∃ p, rd2 prefs i p = Some x.
Proof.
  intros Hv Hi Hx. destruct (valid_prefs_row _ _ Hv Hi) as (row & Hrow & Hp).
  destruct (is_perm_pos _ _ Hp Hx) as [p ?]. exists p. apply rd2_Some. eauto.
Qed.

Lemma valid_prefs_cell prefs i j :
  valid_prefs n prefs → 0 <= i < n → 0 <= j < n → ∃ x, rd2 prefs i j = Some x.
Proof.
  intros Hv Hi Hj. destruct (valid_prefs_row _ _ Hv Hi) as (row & Hrow & Hp).
  destruct (rd_in_range row j) as [x ?]; [rewrite (is_perm_length _ Hp); lia|].
  exists x. apply rd2_Some. eauto.
Qed.

Lemma valid_prefs_inj prefs i p q x :
  valid_prefs n prefs → rd2 prefs i p = Some x → rd2 prefs i q = Some x → p = q.
Proof.
  intros Hv (row & Hrow & Hp)%rd2_Some (row' & Hrow' & Hq)%rd2_Some.
  simplify_eq. destruct (valid_prefs_rd _ _ _ Hv Hrow) as [_ ?].
  by eapply is_perm_inj.
Qed.

End Perm.

Lemma unmatched_nonneg sm : 0 <= unmatched sm.
Proof. induction sm as [|x sm IH]; simpl; [lia|]. case_decide; lia. Qed.

Lemma unmatched_insert sm k old v :
  sm !! k = Some old →
  unmatched (<[k := v]> sm) =
  unmatched sm - (if decide (old = -1) then 1 else 0)
  + (if decide (v = -1) then 1 else 0).
Proof.
  revert k. induction sm as [|x sm IH]; intros [|k] Hk; simplify_eq/=.
  - lia.
  - rewrite (IH _ Hk). lia.
Qed.

Lemma unmatched_wr sm i old v sm' :
  rd sm i = Some old → wr sm i v = Some sm' →
  unmatched sm' =
  unmatched sm - (if decide (old = -1) then 1 else 0)
  + (if decide (v = -1) then 1 else 0).
Proof.
  intros Hold Hwr. apply rd_Some in Hold as [_ Hold].
  apply wr_Some in Hwr as [_ ->]. by apply unmatched_insert.
Qed.

Lemma unmatched_pos sm : 0 < unmatched sm → ∃ s, rd sm s = Some (-1).
Proof.
  intros H. apply elem_of_rd. induction sm as [|x sm IH]; simpl in H; [lia|].
  case_decide; subst; [left|right; apply IH; lia].
Qed.

Lemma unmatched_zero sm s : unmatched sm <= 0 → rd sm s ≠ Some (-1).
Proof.
  intros H Hs%rd_elem_of. induction sm as [|x sm IH]; [by inversion Hs|].
  simpl in H. pose proof (unmatched_nonneg sm).
  inversion Hs; subst; [case_decide; [lia|done]|]. apply IH; [|done].
  case_decide; lia.
Qed.

Lemma unmatched_replicate k : unmatched (replicate k (-1)) = Z.of_nat k.
Proof.
  induction k as [|k IH]; [done|]. cbn [replicate unmatched]. rewrite IH.
  case_decide; lia.
Qed.

(** An array of [n] distinct identifiers holds each identifier once. *)
Lemma distinct_is_perm n (l : list Z) :
  length l = Z.to_nat n →
  (∀ i x, rd l i = Some x → 0 <= x < n) →
  (∀ i j x, rd l i = Some x → rd l j = Some x → i = j) →
  l ≡ₚ seqZ 0 n.
Proof.
  intros Hlen Hrange Hinj. apply submseteq_length_Permutation.
  - apply NoDup_submseteq.
    + apply NoDup_alt. intros i j x Hi Hj.
      assert (Z.of_nat i = Z.of_nat j); [|lia].
      apply (Hinj _ _ x); apply rd_Some; rewrite Nat2Z.id; split; (lia || done).
    + intros x [i Hi]%elem_of_rd. apply elem_of_seqZ. apply Hrange in Hi. lia.
  - rewrite length_seqZ. lia.
Qed.

Section EngineFacts.

Variable n : Z.
Variable seller_prefs buyer_prefs : list (list Z).
Hypothesis n_nonneg : 0 <= n.
Hypothesis sellers_valid : valid_prefs n seller_prefs.
Hypothesis buyers_valid : valid_prefs n buyer_prefs.

Local Abbreviation Inv := (Inv n seller_prefs buyer_prefs).
Local Abbreviation step := (step seller_prefs buyer_prefs).
Local Abbreviation exec := (exec n seller_prefs buyer_prefs).
Local Abbreviation visited := (visited n seller_prefs buyer_prefs).
Local Abbreviation initial := (initial n).

(** The rank scan finds the position of the seller in the buyer's list. *)
Lemma rank_scan_spec b s r0 :
  0 <= b < n → 0 <= s < n →
  ∃ r, rank_scan n buyer_prefs b s r0 = Some r ∧ rd2 buyer_prefs b r = Some s.
Proof.
  intros Hb Hs.
  destruct (valid_prefs_pos _ _ _ _ buyers_valid Hb Hs) as [p Hp].
  destruct (valid_prefs_rd2 _ _ _ _ _ buyers_valid Hp) as (_ & Hpn & _).
  destruct (for_range_inv (λ j r, p < j → r = p)
              (rank_body buyer_prefs b s) n r0) as (r & Hr & Hfin);
    [done|lia| |].
  - intros j r Hj IH.
    destruct (valid_prefs_cell _ _ _ _ buyers_valid Hb Hj) as [v Hv].
    eexists. unfold rank_body. rewrite Hv. split; [done|].
    intros Hlt. case_decide as Hvs.
    + subst v. eapply valid_prefs_inj; eauto.
    + apply IH. destruct (decide (p = j)) as [->|]; [congruence|lia].
  - exists r. split; [done|]. by rewrite (Hfin ltac:(lia)).
Qed.

(** A seller without a buyer has not exhausted its list: otherwise every
    buyer would hold a seller, and with as many buyers as sellers this
    seller would be one of them. *)
Lemma unmatched_cursor st s c :
  Inv st → rd (seller_matches st) s = Some (-1) →
  rd (seller_next_choices st) s = Some c → c < n.
Proof.
  intros HI Hs Hc. destruct (decide (c < n)) as [|Hge]; [done|exfalso].
  assert (Hsn : 0 <= s < n).
  { apply rd_bound in Hs. rewrite (inv_len_sm _ HI) in Hs. lia. }
  pose proof (inv_cursor _ HI _ _ Hc) as Hcn.
  assert (Hall : ∀ b t, rd (buyer_matches st) b = Some t →
                        t ≠ -1 ∧ rd (seller_matches st) t = Some b).
  { intros b t Hb.
    assert (0 <= b < n) as Hbn.
    { apply rd_bound in Hb. rewrite (inv_len_bm _ HI) in Hb. lia. }
    destruct (valid_prefs_pos _ _ _ _ sellers_valid Hsn Hbn) as [p Hp].
    destruct (valid_prefs_rd2 _ _ _ _ _ sellers_valid Hp) as (_ & Hpn & _).
    destruct (inv_rejected _ HI s c p b) as (t' & ? & ? & Ht' & ? & _);
      [done|lia|done|].
    simplify_eq. split; [done|]. by apply (inv_bm _ HI). }
  assert (Hperm : buyer_matches st ≡ₚ seqZ 0 n).
  { apply distinct_is_perm.
    - apply (inv_len_bm _ HI).
    - intros b t Hb. destruct (Hall _ _ Hb) as [_ Ht%rd_bound].
      rewrite (inv_len_sm _ HI) in Ht. lia.
    - intros b1 b2 t H1 H2.
      destruct (Hall _ _ H1) as [_ ?], (Hall _ _ H2) as [_ ?]. congruence. }
  assert (s ∈ buyer_matches st) as [b Hb]%elem_of_rd.
  { rewrite Hperm. apply elem_of_seqZ. lia. }
  destruct (Hall _ _ Hb) as [_ Hsb]. apply rd_bound in Hb. simplify_eq. lia.
Qed.

(** Under the invariant an iteration never faults, and it is one of the
    four cases of [step]. *)
Lemma propose_step st s :
  Inv st → 0 <= s < n →
  ∃ st', propose n seller_prefs buyer_prefs s st = Some st' ∧ step s st st'.
Proof.
  intros HI Hs.
  pose proof (inv_len_snc _ HI) as Lsnc. pose proof (inv_len_bfp _ HI) as Lbfp.
  pose proof (inv_len_sm _ HI) as Lsm. pose proof (inv_len_bm _ HI) as Lbm.
  destruct (rd_in_range (seller_matches st) s) as [m Hm]; [lia|].
  unfold propose. rewrite Hm. cbn [mbind option_bind].
  case_decide as Hm1; [subst m|eexists; split; [done|by eapply step_skip]].
  destruct (rd_in_range (seller_next_choices st) s) as [c Hc]; [lia|].
  pose proof (inv_cursor _ HI _ _ Hc) as Hc0.
  pose proof (unmatched_cursor _ _ _ HI Hm Hc) as Hcn.
  destruct (valid_prefs_cell _ _ s c sellers_valid) as [b Hb]; [lia..|].
  destruct (valid_prefs_rd2 _ _ _ _ _ sellers_valid Hb) as (_ & _ & Hbn).
  destruct (rd_in_range (buyer_matches st) b) as [t Ht]; [lia|].
  destruct (rank_scan_spec b s (curr_seller_rank st)) as (r & Hr & Hrank);
    [done..|].
  rewrite Hc. cbn [mbind option_bind]. rewrite Hb. cbn [mbind option_bind].
  rewrite (wr_in_range (seller_next_choices st) s (c + 1)) by lia.
  cbn [mbind option_bind]. rewrite Ht. cbn [mbind option_bind].
  rewrite Hr. cbn [mbind option_bind].
  rewrite (wr_in_range (buyer_final_prefs st) b r) by lia.
  rewrite (wr_in_range (buyer_matches st) b s) by lia.
  rewrite (wr_in_range (seller_matches st) s b) by lia.
  cbn [mbind option_bind].
  case_decide as Ht1.
  - subst t. eexists. split; [done|].
    eapply step_accept; eauto; apply wr_in_range; lia.
  - destruct (rd_in_range (buyer_final_prefs st) b) as [rt Hrt]; [lia|].
    rewrite Hrt. cbn [mbind option_bind].
    pose proof (inv_bm _ HI _ _ Ht Ht1) as Hts%rd_bound.
    case_decide as Hlt.
    + rewrite (wr_in_range (<[Z.to_nat s:=b]> (seller_matches st)) t (-1))
        by (rewrite length_insert; lia).
      eexists. split; [done|].
      eapply step_switch; eauto; apply wr_in_range;
        rewrite ?length_insert; lia.
    + eexists. split; [done|].
      eapply step_reject; eauto; apply wr_in_range; lia.
Qed.

Lemma Inv_seller st s b : Inv st → rd (seller_matches st) s = Some b → 0 <= s < n.
Proof. intros HI H%rd_bound. rewrite (inv_len_sm _ HI) in H. lia. Qed.

Lemma Inv_buyer st b s : Inv st → rd (buyer_matches st) b = Some s → 0 <= b < n.
Proof. intros HI H%rd_bound. rewrite (inv_len_bm _ HI) in H. lia. Qed.

Lemma Inv_cursor_seller st s c :
  Inv st → rd (seller_next_choices st) s = Some c → 0 <= s < n.
Proof. intros HI H%rd_bound. rewrite (inv_len_snc _ HI) in H. lia. Qed.

(** The bookkeeping common to the three kinds of proposal: the cursor of
    the proposer moves by one and the proposal is logged. *)
Section Advance.
Variables (st : state) (s c b : Z) (snc : list Z).
Hypothesis HI : Inv st.
Hypothesis Hm : rd (seller_matches st) s = Some (-1).
Hypothesis Hc : rd (seller_next_choices st) s = Some c.
Hypothesis Hb : rd2 seller_prefs s c = Some b.
Hypothesis Esnc :
  ∀ j, rd snc j
       = if decide (j = s) then Some (c + 1) else rd (seller_next_choices st) j.

Lemma advance_cursor x cx : rd snc x = Some cx → 0 <= cx <= n.
Proof using All.
  pose proof (inv_cursor _ HI _ _ Hc). pose proof (unmatched_cursor _ _ _ HI Hm Hc).
  rewrite Esnc. case_decide; intros; simplify_eq; [lia|by eapply inv_cursor].
Qed.

Lemma advance_cases x cx i y :
  rd snc x = Some cx → 0 <= i < cx → rd2 seller_prefs x i = Some y →
  (x = s ∧ i = c ∧ y = b) ∨
  (∃ c0, rd (seller_next_choices st) x = Some c0 ∧ 0 <= i < c0).
Proof using All.
  rewrite Esnc. intros Hx Hi Hy. case_decide; simplify_eq; [|by eauto].
  destruct (decide (i = c)) as [->|]; [left; by simplify_eq|].
  right. exists c. split; [done|lia].
Qed.

Lemma advance_log x y :
  (x, y) ∈ (s, b) :: proposals st →
  ∃ cx i, rd snc x = Some cx ∧ 0 <= i < cx ∧ rd2 seller_prefs x i = Some y.
Proof using All.
  pose proof (inv_cursor _ HI _ _ Hc).
  intros [?|Hin]%elem_of_cons; simplify_eq.
  - exists (c + 1), c. rewrite Esnc, decide_True by done.
    split; [done|]. split; [lia|done].
  - destruct (inv_log _ HI _ _ Hin) as (c0 & i & Hc0 & Hi & Hy).
    rewrite Esnc. case_decide; simplify_eq.
    + exists (c + 1), i. split; [done|]. split; [lia|done].
    + by exists c0, i.
Qed.

Lemma advance_NoDup : NoDup ((s, b) :: proposals st).
Proof using All.
  apply NoDup_cons. split; [|by apply (inv_log_NoDup _ HI)].
  intros Hin. destruct (inv_log _ HI _ _ Hin) as (c0 & i & Hc0 & Hi & Hy).
  simplify_eq. pose proof (valid_prefs_inj _ _ _ _ _ _ sellers_valid Hy Hb). lia.
Qed.

End Advance.

Lemma step_Inv s st st' : Inv st → step s st st' → Inv st'.
Proof.
  intros HI Hstep.
  destruct Hstep as
    [ m Hm Hm1
    | c b r snc bfp bm sm Hm Hc Hb Hr Ht Wsnc Wbfp Wbm Wsm
    | c b r t rt snc bfp bm sm sm' Hm Hc Hb Hr Ht Ht1 Hrt Hlt Wsnc Wbfp Wbm Wsm Wsm'
    | c b r t rt snc Hm Hc Hb Hr Ht Ht1 Hrt Hlt Wsnc ]; [done|..].
  - (* the buyer is free *)
    pose proof (unmatched_wr _ _ _ _ _ Hm Wsm) as Hcount.
    pose proof (Inv_seller _ _ _ HI Hm) as Hsn.
    pose proof (Inv_buyer _ _ _ HI Ht) as Hbn.
    pose proof (λ j, rd_wr _ _ _ _ j Wsnc) as Esnc.
    pose proof (λ j, rd_wr _ _ _ _ j Wbfp) as Ebfp.
    pose proof (λ j, rd_wr _ _ _ _ j Wbm) as Ebm.
    pose proof (λ j, rd_wr _ _ _ _ j Wsm) as Esm.
    apply wr_length in Wsnc, Wbfp, Wbm, Wsm.
    pose proof (advance_cursor _ _ _ _ _ HI Hm Hc Hb Esnc) as Acur.
    pose proof (advance_cases _ _ _ _ _ HI Hm Hc Hb Esnc) as Acases.
    pose proof (advance_log _ _ _ _ _ HI Hm Hc Hb Esnc) as Alog.
    pose proof (advance_NoDup _ _ _ _ _ HI Hm Hc Hb Esnc) as And.
    destruct HI as [L1 L2 L3 L4 Icur Ism Ibm Irank Ilast Irej Icount Ilog Ind].
    constructor; cbn [seller_next_choices buyer_final_prefs
      seller_matches buyer_matches bachelor_count curr_seller_rank proposals];
      try congruence; try done.
    + intros x y Hx Hy. rewrite Esm in Hx. rewrite Ebm.
      destruct (decide (x = s)) as [->|Hxs]; simplify_eq.
      * by rewrite decide_True.
      * pose proof (Ism _ _ Hx Hy) as Hyx.
        destruct (decide (y = b)) as [->|]; [|done].
        apply rd_bound in Hx. simplify_eq. lia.
    + intros y x Hy Hx. rewrite Ebm in Hy. rewrite Esm.
      destruct (decide (y = b)) as [->|Hyb]; simplify_eq.
      * by rewrite decide_True.
      * pose proof (Ibm _ _ Hy Hx) as Hxy.
        destruct (decide (x = s)) as [->|]; [|done].
        apply rd_bound in Hy. simplify_eq. lia.
    + intros y x Hy Hx. rewrite Ebm in Hy. rewrite Ebfp.
      destruct (decide (y = b)) as [->|Hyb]; simplify_eq; [eauto|by eapply Irank].
    + intros x y Hx Hy. rewrite Esm in Hx. rewrite Esnc.
      destruct (decide (x = s)) as [->|Hxs]; simplify_eq; [|by eapply Ilast].
      exists (c + 1). split; [done|]. by replace (c + 1 - 1) with c by lia.
    + intros x cx i y Hx Hi Hy. rewrite Ebm, Ebfp.
      destruct (Acases _ _ _ _ Hx Hi Hy) as [(-> & -> & ->)|(c0 & Hc0 & Hi0)].
      * rewrite !decide_True by done. exists s, r, r.
        repeat split; (done || lia).
      * destruct (Irej _ _ _ _ Hc0 Hi0 Hy) as (t & rt & rs & Hbt & Ht1 & Hrt & Hrs & Hle).
        destruct (decide (y = b)) as [->|]; [congruence|]. by exists t, rt, rs.
    + rewrite Hcount, Icount. repeat case_decide; lia.
  - (* the buyer prefers the proposer to the seller it holds *)
    pose proof (Inv_seller _ _ _ HI Hm) as Hsn.
    pose proof (Inv_buyer _ _ _ HI Ht) as Hbn.
    pose proof (inv_bm _ HI _ _ Ht Ht1) as Hts.
    assert (t ≠ s) as Hne by (intros ->; simplify_eq; lia).
    pose proof (λ j, rd_wr _ _ _ _ j Wsnc) as Esnc.
    pose proof (λ j, rd_wr _ _ _ _ j Wbfp) as Ebfp.
    pose proof (λ j, rd_wr _ _ _ _ j Wbm) as Ebm.
    pose proof (λ j, rd_wr _ _ _ _ j Wsm) as Esm.
    pose proof (λ j, rd_wr _ _ _ _ j Wsm') as Esm'.
    assert (rd sm t = Some b) as Hts' by (by rewrite Esm, decide_False).
    pose proof (unmatched_wr _ _ _ _ _ Hm Wsm) as Hcount.
    pose proof (unmatched_wr _ _ _ _ _ Hts' Wsm') as Hcount'.
    apply wr_length in Wsnc, Wbfp, Wbm, Wsm, Wsm'.
    pose proof (advance_cursor _ _ _ _ _ HI Hm Hc Hb Esnc) as Acur.
    pose proof (advance_cases _ _ _ _ _ HI Hm Hc Hb Esnc) as Acases.
    pose proof (advance_log _ _ _ _ _ HI Hm Hc Hb Esnc) as Alog.
    pose proof (advance_NoDup _ _ _ _ _ HI Hm Hc Hb Esnc) as And.
    destruct HI as [L1 L2 L3 L4 Icur Ism Ibm Irank Ilast Irej Icount Ilog Ind].
    constructor; cbn [seller_next_choices buyer_final_prefs
      seller_matches buyer_matches bachelor_count curr_seller_rank proposals];
      try congruence; try done.
    + intros x y Hx Hy. rewrite Esm', Esm in Hx. rewrite Ebm.
      destruct (decide (x = t)) as [->|Hxt]; [by simplify_eq|].
      destruct (decide (x = s)) as [->|Hxs]; simplify_eq.
      * by rewrite decide_True.
      * pose proof (Ism _ _ Hx Hy) as Hyx.
        destruct (decide (y = b)) as [->|]; [|done]. congruence.
    + intros y x Hy Hx. rewrite Ebm in Hy. rewrite Esm', Esm.
      destruct (decide (y = b)) as [->|Hyb]; simplify_eq.
      * by rewrite decide_False, decide_True.
      * pose proof (Ibm _ _ Hy Hx) as Hxy.
        rewrite !decide_False; [done|intros ->..].
        -- apply rd_bound in Hy. simplify_eq. lia.
        -- congruence.
    + intros y x Hy Hx. rewrite Ebm in Hy. rewrite Ebfp.
      destruct (decide (y = b)) as [->|Hyb]; simplify_eq; [eauto|by eapply Irank].
    + intros x y Hx Hy. rewrite Esm', Esm in Hx. rewrite Esnc.
      destruct (decide (x = t)) as [->|Hxt]; [by simplify_eq|].
      destruct (decide (x = s)) as [->|Hxs]; simplify_eq; [|by eapply Ilast].
      exists (c + 1). split; [done|]. by replace (c + 1 - 1) with c by lia.
    + intros x cx i y Hx Hi Hy. rewrite Ebm, Ebfp.
      destruct (Acases _ _ _ _ Hx Hi Hy) as [(-> & -> & ->)|(c0 & Hc0 & Hi0)].
      * rewrite !decide_True by done. exists s, r, r.
        repeat split; (done || lia).
      * destruct (Irej _ _ _ _ Hc0 Hi0 Hy)
          as (t0 & rt0 & rs & Hbt & Ht0 & Hrt0 & Hrs & Hle).
        destruct (decide (y = b)) as [->|]; [|by exists t0, rt0, rs].
        simplify_eq. exists s, r, rs. repeat split; (done || lia).
    + rewrite Hcount', Hcount, Icount. repeat case_decide; lia.
  - (* the buyer keeps the seller it holds *)
    pose proof (λ j, rd_wr _ _ _ _ j Wsnc) as Esnc.
    apply wr_length in Wsnc.
    pose proof (advance_cursor _ _ _ _ _ HI Hm Hc Hb Esnc) as Acur.
    pose proof (advance_cases _ _ _ _ _ HI Hm Hc Hb Esnc) as Acases.
    pose proof (advance_log _ _ _ _ _ HI Hm Hc Hb Esnc) as Alog.
    pose proof (advance_NoDup _ _ _ _ _ HI Hm Hc Hb Esnc) as And.
    destruct HI as [L1 L2 L3 L4 Icur Ism Ibm Irank Ilast Irej Icount Ilog Ind].
    constructor; cbn [seller_next_choices buyer_final_prefs
      seller_matches buyer_matches bachelor_count curr_seller_rank proposals];
      try congruence; try done.
    + intros x y Hx Hy. rewrite Esnc. case_decide; [congruence|by eapply Ilast].
    + intros x cx i y Hx Hi Hy.
      destruct (Acases _ _ _ _ Hx Hi Hy) as [(-> & -> & ->)|(c0 & Hc0 & Hi0)].
      * exists t, rt, r. repeat split; (done || lia).
      * by eapply Irej.
Qed.

(** *** Initialisation *)

Lemma rd_replicate {A} k (v : A) i :
  rd (replicate k v) i = if decide (0 <= i < Z.of_nat k) then Some v else None.
Proof.
  unfold rd. case_decide; case_decide; try lia.
  - apply lookup_replicate_2. lia.
  - apply lookup_replicate_None. lia.
  - done.
Qed.

Lemma init_state_eq junk : init_state n junk = Some initial.
Proof.
  destruct (for_range_inv
    (λ j st,
       length (seller_next_choices st) = Z.to_nat n ∧
       length (buyer_final_prefs st) = Z.to_nat n ∧
       length (seller_matches st) = Z.to_nat n ∧
       length (buyer_matches st) = Z.to_nat n ∧
       bachelor_count st = n ∧ curr_seller_rank st = -1 ∧ proposals st = [] ∧
       ∀ i, 0 <= i < j →
         rd (seller_next_choices st) i = Some 0 ∧
         rd (buyer_final_prefs st) i = Some (-1) ∧
         rd (seller_matches st) i = Some (-1) ∧
         rd (buyer_matches st) i = Some (-1))
    init_body n (declared n junk)) as (st & Hrun & HP); [done| | |].
  - unfold declared.
    cbn [seller_next_choices buyer_final_prefs seller_matches buyer_matches
         bachelor_count curr_seller_rank proposals].
    rewrite !length_cells. repeat split; (done || lia).
  - intros j st Hj (L1 & L2 & L3 & L4 & Hbc & Hr & Hlog & Hcells).
    unfold init_body.
    rewrite (wr_in_range (seller_next_choices st)) by lia.
    rewrite (wr_in_range (buyer_final_prefs st)) by lia.
    rewrite (wr_in_range (seller_matches st)) by lia.
    rewrite (wr_in_range (buyer_matches st)) by lia.
    cbn [mbind option_bind]. eexists. split; [done|]. cbn.
    rewrite !length_insert. repeat split; try done.
    all: destruct (decide (i = j)) as [->|];
      [eapply rd_wr_eq, wr_in_range; lia|].
    all: destruct (Hcells i) as (? & ? & ? & ?); [lia|].
    all: by erewrite rd_wr_ne; [|apply wr_in_range; lia|].
  - unfold init_state. rewrite Hrun. f_equal.
    destruct HP as (L1 & L2 & L3 & L4 & Hbc & Hr & Hlog & Hcells).
    destruct st as [snc bfp sm bm bc r log]. cbn in *. subst. unfold initial.
    f_equal; apply rd_ext; intros i; rewrite rd_replicate; case_decide as Hi.
    all: try (destruct (Hcells i) as (? & ? & ? & ?); [lia|done]).
    all: unfold rd; case_decide; [apply lookup_ge_None; lia|done].
Qed.

Lemma initial_Inv : Inv initial.
Proof.
  constructor; cbn; rewrite ?length_replicate; try done.
  - intros s c. rewrite rd_replicate. case_decide; intros; simplify_eq. lia.
  - intros s b. rewrite rd_replicate. case_decide; intros; simplify_eq.
  - intros b s. rewrite rd_replicate. case_decide; intros; simplify_eq.
  - intros b s. rewrite rd_replicate. case_decide; intros; simplify_eq.
  - intros s b. rewrite rd_replicate. case_decide; intros; simplify_eq.
  - intros s c i b. rewrite rd_replicate. case_decide; intros; simplify_eq. lia.
  - rewrite unmatched_replicate. lia.
  - intros s b Hin. by inversion Hin.
  - constructor.
Qed.

(** *** One proposal, one round *)

Lemma step_log s st st' :
  step s st st' →
  (length (proposals st) <= length (proposals st'))%nat ∧
  (rd (seller_matches st) s = Some (-1) →
   length (proposals st') = S (length (proposals st))) ∧
  (∀ x, x ≠ s → rd (seller_matches st) x = Some (-1) →
        rd (seller_matches st') x = Some (-1)).
Proof.
  destruct 1; cbn [proposals seller_matches length].
  - split; [lia|]. split; [congruence|done].
  - split; [lia|]. split; [done|]. intros x Hx Hxm. by erewrite rd_wr_ne.
  - split; [lia|]. split; [done|]. intros x Hx Hxm.
    erewrite rd_wr; [|done]. case_decide; [done|]. by erewrite rd_wr_ne.
  - split; [lia|]. split; done.
Qed.

Lemma step_cursor s st st' x c c' :
  step s st st' →
  rd (seller_next_choices st) x = Some c →
  rd (seller_next_choices st') x = Some c' → c <= c'.
Proof.
  destruct 1; cbn [seller_next_choices]; intros Hx Hx'.
  1: simplify_eq; lia.
  all: erewrite rd_wr in Hx' by done; case_decide; simplify_eq; lia.
Qed.

Lemma round_spec st :
  Inv st →
  ∃ st', round n seller_prefs buyer_prefs st = Some st' ∧ Inv st' ∧
    (length (proposals st) <= length (proposals st'))%nat ∧
    (bachelor_count st > 0 →
     (length (proposals st) < length (proposals st'))%nat).
Proof.
  intros HI.
  assert (∃ s0, bachelor_count st > 0 → rd (seller_matches st) s0 = Some (-1))
    as [s0 Hs0].
  { destruct (decide (bachelor_count st > 0)) as [Hpos|]; [|exists 0; done].
    rewrite (inv_count _ HI) in Hpos.
    destruct (unmatched_pos (seller_matches st)) as [s0 ?]; [lia|]. by exists s0. }
  destruct (for_range_inv
    (λ j st',
       Inv st' ∧ (length (proposals st) <= length (proposals st'))%nat ∧
       (bachelor_count st > 0 →
        (j <= s0 → rd (seller_matches st') s0 = Some (-1)) ∧
        (s0 < j → (length (proposals st) < length (proposals st'))%nat)))
    (propose n seller_prefs buyer_prefs) n st)
    as (st' & Hrun & HI' & Hle & Hlt); [done| | |].
  - split; [done|]. split; [lia|]. intros Hpos. split; [auto|].
    intros Hlt. apply Hs0, rd_bound in Hpos. lia.
  - intros j st1 Hj (HI1 & Hle & Hprog).
    destruct (propose_step st1 j HI1 Hj) as (st2 & Hp & Hstep).
    exists st2. split; [done|]. split; [by eapply step_Inv|].
    destruct (step_log _ _ _ Hstep) as (Hle' & Hnew & Hkeep).
    split; [lia|]. intros Hpos. destruct (Hprog Hpos) as [Hbefore Hafter].
    split.
    + intros Hjs. apply Hkeep; [lia|]. apply Hbefore. lia.
    + intros Hsj. destruct (decide (s0 = j)) as [->|].
      * rewrite Hnew; [lia|]. apply Hbefore. lia.
      * assert (s0 < j) as Hlt%Hafter by lia. lia.
  - exists st'. split; [done|]. split; [done|]. split; [done|].
    intros Hpos. destruct (Hlt Hpos) as [_ Hafter]. apply Hafter.
    apply Hs0, (Inv_seller _ _ _ HI) in Hpos. lia.
Qed.

(** *** The log of proposals is bounded *)

Lemma log_entry st s b :
  Inv st → (s, b) ∈ proposals st → 0 <= s < n ∧ 0 <= b < n.
Proof.
  intros HI Hin. destruct (inv_log _ HI _ _ Hin) as (c & i & _ & _ & Hb).
  destruct (valid_prefs_rd2 _ _ _ _ _ sellers_valid Hb) as (? & _ & ?). done.
Qed.

Lemma log_bound st : Inv st → Z.of_nat (length (proposals st)) <= n * n.
Proof.
  intros HI.
  assert (proposals st ⊆+ list_prod (seqZ 0 n) (seqZ 0 n)) as Hsub.
  { apply NoDup_submseteq; [apply (inv_log_NoDup _ HI)|].
    intros [s b] Hin. destruct (log_entry _ _ _ HI Hin).
    apply list_elem_of_In, in_prod; apply list_elem_of_In, elem_of_seqZ; lia. }
  apply submseteq_length in Hsub.
  rewrite length_prod, !length_seqZ in Hsub. nia.
Qed.

Lemma log_bound_seller st s :
  Inv st → Z.of_nat (length (filter (λ p, p.1 = s) (proposals st))) <= n.
Proof.
  intros HI.
  assert (filter (λ p, p.1 = s) (proposals st) ⊆+ (s,.) <$> seqZ 0 n) as Hsub.
  { apply NoDup_submseteq; [apply NoDup_filter, (inv_log_NoDup _ HI)|].
    intros [x b] [Hx Hin]%list_elem_of_filter. cbn in Hx. subst x.
    destruct (log_entry _ _ _ HI Hin). apply list_elem_of_fmap.
    exists b. split; [done|]. apply elem_of_seqZ. lia. }
  apply submseteq_length in Hsub.
  rewrite length_fmap, length_seqZ in Hsub. lia.
Qed.

(** *** The loops as runs of [exec] *)

Lemma for_loop_exec k i st st' :
  i + Z.of_nat k <= n →
  for_loop k i (propose n seller_prefs buyer_prefs) st = Some st' →
  rtc exec (AtFor i, st) (AtFor (i + Z.of_nat k), st').
Proof.
  revert i st. induction k as [|k IH]; intros i st Hk Hrun.
  - cbn in Hrun. simplify_eq. rewrite Z.add_0_r. done.
  - cbn [for_loop] in Hrun.
    destruct (propose n seller_prefs buyer_prefs i st) as [st1|] eqn:Hp; [|done].
    eapply rtc_l; [apply exec_body; [lia|done]|].
    replace (i + Z.of_nat (S k)) with (i + 1 + Z.of_nat k) by lia.
    apply IH; [lia|done].
Qed.

Lemma round_exec st st' :
  round n seller_prefs buyer_prefs st = Some st' →
  rtc exec (AtFor 0, st) (AtFor n, st').
Proof.
  intros Hrun. replace n with (0 + Z.of_nat (Z.to_nat n)) at 2 by lia.
  apply for_loop_exec; [lia|done].
Qed.

(** Every configuration of a run from a state with the invariant has the
    invariant, and the loop counter stays within [0, n]. *)
Lemma visited_Inv init cfg :
  Inv init → rtc exec (AtWhile, init) cfg →
  Inv cfg.2 ∧ match cfg.1 with AtFor cs => 0 <= cs <= n | AtWhile => True end.
Proof.
  intros HI Hrun. revert cfg Hrun. apply rtc_ind_r; [done|].
  intros cfg1 cfg2 Hrun Hexec [HI1 Hpc].
  destruct Hexec as [st Hpos|cs st st' Hcs Hp|cs st Hcs]; cbn in *.
  - split; [done|lia].
  - destruct (propose_step st cs HI1) as (st2 & Hp2 & Hstep); [lia|].
    simplify_eq. split; [by eapply step_Inv|lia].
  - done.
Qed.

(** *** Termination *)

Lemma while_loop_total fuel st :
  Inv st →
  n * n - Z.of_nat (length (proposals st)) <= Z.of_nat fuel →
  ∃ st', while_loop n seller_prefs buyer_prefs fuel st = Finished st' ∧ Inv st' ∧
         bachelor_count st' <= 0 ∧ rtc exec (AtWhile, st) (AtWhile, st').
Proof.
  revert st. induction fuel as [|fuel IH]; intros st HI Hfuel.
  - cbn [while_loop]. case_decide as Hpos.
    + destruct (round_spec st HI) as (st1 & _ & HI1 & _ & Hlt).
      specialize (Hlt Hpos). pose proof (log_bound _ HI1). exfalso. lia.
    + exists st. split; [done|]. split; [done|]. split; [lia|apply rtc_refl].
  - cbn [while_loop]. case_decide as Hpos.
    + destruct (round_spec st HI) as (st1 & Hround & HI1 & _ & Hlt).
      specialize (Hlt Hpos). rewrite Hround.
      destruct (IH st1 HI1) as (st' & Hrun & HI' & Hbc & Hexec); [lia|].
      exists st'. split; [done|]. split; [done|]. split; [done|].
      eapply rtc_l; [by apply exec_enter|].
      etrans; [by apply round_exec|].
      eapply rtc_l; [apply exec_leave; lia|done].
    + exists st. split; [done|]. split; [done|]. split; [lia|apply rtc_refl].
Qed.

(** With [n * n] rounds of fuel or more the engine returns, in a state
    that has the invariant and no seller left without a buyer. *)
Lemma engine_total fuel junk :
  n * n <= Z.of_nat fuel →
  ∃ st, engine n seller_prefs buyer_prefs fuel junk = Finished st ∧
        Inv st ∧ bachelor_count st <= 0 ∧ visited initial (AtWhile, st).
Proof.
  intros Hfuel. unfold engine. rewrite init_state_eq.
  destruct (while_loop_total fuel initial initial_Inv) as (st & ? & ? & ? & ?);
    [cbn; lia|].
  by exists st.
Qed.

(** *** The state the loop ends in *)

Section Final.
Variable st : state.
Hypothesis HI : Inv st.
Hypothesis Hdone : bachelor_count st <= 0.

Lemma final_seller s b : rd (seller_matches st) s = Some b → b ≠ -1.
Proof using All.
  intros Hs ->. eapply unmatched_zero; [|done]. by rewrite <-(inv_count _ HI).
Qed.

Lemma final_sellers_perm : seller_matches st ≡ₚ seqZ 0 n.
Proof using All.
  apply distinct_is_perm.
  - apply (inv_len_sm _ HI).
  - intros s b Hs. pose proof (final_seller _ _ Hs) as Hb.
    eapply Inv_buyer; [done|]. by apply (inv_sm _ HI).
  - intros s1 s2 b H1 H2. pose proof (final_seller _ _ H1) as Hb.
    pose proof (inv_sm _ HI _ _ H1 Hb). pose proof (inv_sm _ HI _ _ H2 Hb).
    congruence.
Qed.

Lemma final_buyer b s : rd (buyer_matches st) b = Some s → s ≠ -1.
Proof using All.
  intros Hb. pose proof (Inv_buyer _ _ _ HI Hb) as Hbn.
  assert (b ∈ seller_matches st) as [s' Hs']%elem_of_rd.
  { rewrite final_sellers_perm. apply elem_of_seqZ. lia. }
  pose proof (inv_sm _ HI _ _ Hs' (final_seller _ _ Hs')).
  pose proof (Inv_seller _ _ _ HI Hs'). simplify_eq. lia.
Qed.

Lemma final_buyers_perm : buyer_matches st ≡ₚ seqZ 0 n.
Proof using All.
  apply distinct_is_perm.
  - apply (inv_len_bm _ HI).
  - intros b s Hb. pose proof (final_buyer _ _ Hb) as Hs.
    eapply Inv_seller; [done|]. by apply (inv_bm _ HI).
  - intros b1 b2 s H1 H2. pose proof (final_buyer _ _ H1) as Hs.
    pose proof (inv_bm _ HI _ _ H1 Hs). pose proof (inv_bm _ HI _ _ H2 Hs).
    congruence.
Qed.

Lemma final_perfect :
  perfect_matching n (seller_matches st) (buyer_matches st).
Proof using All.
  split; [apply final_sellers_perm|]. split; [apply final_buyers_perm|].
  intros s b. split; intros H.
  - apply (inv_sm _ HI); [done|]. by eapply final_seller.
  - apply (inv_bm _ HI); [done|]. by eapply final_buyer.
Qed.

Lemma final_stable :
  stable seller_prefs buyer_prefs (seller_matches st) (buyer_matches st).
Proof using All.
  intros s b (b' & s' & srow & brow & Hs & Hbb' & Hb & Hss' & Hsrow & Hbrow
              & (i & j & Hi & Hj & Hij) & (p & q & Hp & Hq & Hpq)).
  destruct (inv_last _ HI _ _ Hs (final_seller _ _ Hs)) as (c & Hc & Hlast).
  assert (rd2 seller_prefs s j = Some b') as Hj2 by (apply rd2_Some; eauto).
  assert (rd2 seller_prefs s i = Some b) as Hi2 by (apply rd2_Some; eauto).
  pose proof (valid_prefs_inj _ _ _ _ _ _ sellers_valid Hj2 Hlast) as ->.
  destruct (valid_prefs_rd2 _ _ _ _ _ sellers_valid Hi2) as (_ & ? & _).
  destruct (inv_rejected _ HI s c i b) as (t & rt & rs & Ht & _ & Hrt & Hrs & Hle);
    [done|lia|done|].
  simplify_eq.
  destruct (inv_rank _ HI _ _ Hb (final_buyer _ _ Hb)) as (rt' & Hrt' & Hrank).
  simplify_eq.
  assert (rd2 buyer_prefs b p = Some s) as Hp2 by (apply rd2_Some; eauto).
  assert (rd2 buyer_prefs b q = Some s') as Hq2 by (apply rd2_Some; eauto).
  pose proof (valid_prefs_inj _ _ _ _ _ _ buyers_valid Hp2 Hrs).
  pose proof (valid_prefs_inj _ _ _ _ _ _ buyers_valid Hq2 Hrank). lia.
Qed.

Lemma final_rank b :
  0 <= b < n →
  ∃ s r, rd (buyer_matches st) b = Some s ∧
         rd (buyer_final_prefs st) b = Some r ∧
         rd2 buyer_prefs b r = Some s ∧
         ∀ j, rd2 buyer_prefs b j = Some s → j = r.
Proof using All.
  intros Hb. destruct (rd_in_range (buyer_matches st) b) as [s Hs].
  { rewrite (inv_len_bm _ HI). lia. }
  destruct (inv_rank _ HI _ _ Hs (final_buyer _ _ Hs)) as (r & Hr & Hrank).
  exists s, r. repeat split; try done.
  intros j Hj. by eapply valid_prefs_inj.
Qed.

End Final.

End EngineFacts.

(** ** Optimality for the sellers *)

Section Optimal.

Variable n : Z.
Variable seller_prefs buyer_prefs : list (list Z).
Hypothesis n_nonneg : 0 <= n.
Hypothesis sellers_valid : valid_prefs n seller_prefs.
Hypothesis buyers_valid : valid_prefs n buyer_prefs.

(** Any stable perfect matching of the same tables. *)
Variable msm mbm : list Z.
Hypothesis M_perfect : perfect_matching n msm mbm.
Hypothesis M_stable : stable seller_prefs buyer_prefs msm mbm.

Local Abbreviation Inv := (Inv n seller_prefs buyer_prefs).
Local Abbreviation step := (step seller_prefs buyer_prefs).
Local Abbreviation exec := (exec n seller_prefs buyer_prefs).
Local Abbreviation kept := (kept_by_partner seller_prefs msm).

Lemma M_partner s : 0 <= s < n → ∃ b, rd msm s = Some b ∧ 0 <= b < n.
Proof using M_perfect.
  intros Hs. destruct M_perfect as (Hp & _ & _).
  destruct (rd_in_range msm s) as [b Hb].
  { rewrite (is_perm_length n msm Hp). lia. }
  exists b. split; [done|]. by destruct (is_perm_rd n msm s b Hp Hb).
Qed.

Lemma M_inj s1 s2 b : rd msm s1 = Some b → rd msm s2 = Some b → s1 = s2.
Proof using M_perfect.
  destruct M_perfect as (Hp & _ & _). by apply (is_perm_inj n msm).
Qed.

(** A seller [s] that makes its next proposal, to [b], ranks [b] before
    its partner under the other matching unless [b] is that partner. *)
Lemma proposer_prefers st s c b bM :
  Inv st → kept st →
  rd (seller_matches st) s = Some (-1) →
  rd (seller_next_choices st) s = Some c →
  rd2 seller_prefs s c = Some b →
  rd msm s = Some bM → bM ≠ b →
  ∃ srow, rd seller_prefs s = Some srow ∧ ranks_before srow b bM.
Proof using All.
  intros HI HK Hm Hc Hb HbM Hne.
  pose proof (Inv_seller _ _ _ _ _ _ HI Hm) as Hsn.
  destruct (M_partner s Hsn) as (bM' & ? & HbMn). simplify_eq.
  destruct (valid_prefs_pos _ _ _ _ sellers_valid Hsn HbMn) as [p Hp].
  destruct (valid_prefs_rd2 _ _ _ _ _ sellers_valid Hp) as (_ & Hpn & _).
  assert (c < p) as Hcp.
  { destruct (decide (p < c)) as [Hlt|].
    - pose proof (HK s c p bM Hc ltac:(lia) Hp HbM) as Hheld.
      apply (inv_bm _ HI) in Hheld; [|lia]. simplify_eq. lia.
    - destruct (decide (p = c)) as [->|]; [congruence|lia]. }
  apply rd2_Some in Hb as (srow & Hsrow & Hb).
  apply rd2_Some in Hp as (srow' & Hsrow' & Hp). simplify_eq.
  exists srow. split; [done|]. by exists c, p.
Qed.

(** A seller [t] held by [b] ranks [b] before its partner under the other
    matching unless [b] is that partner. *)
Lemma holder_prefers st t b bT :
  Inv st → kept st →
  rd (seller_matches st) t = Some b → b ≠ -1 →
  rd msm t = Some bT → bT ≠ b →
  ∃ trow, rd seller_prefs t = Some trow ∧ ranks_before trow b bT.
Proof using All.
  intros HI HK Ht Hb1 HbT Hne.
  pose proof (Inv_seller _ _ _ _ _ _ HI Ht) as Htn.
  destruct (M_partner t Htn) as (bT' & ? & HbTn). simplify_eq.
  destruct (inv_last _ HI _ _ Ht Hb1) as (ct & Hct & Hlast).
  destruct (valid_prefs_pos _ _ _ _ sellers_valid Htn HbTn) as [p Hp].
  destruct (valid_prefs_rd2 _ _ _ _ _ sellers_valid Hp) as (_ & Hpn & _).
  assert (ct - 1 < p) as Hcp.
  { destruct (decide (p < ct)) as [Hlt|]; [|lia].
    pose proof (HK t ct p bT Hct ltac:(lia) Hp HbT) as Hheld.
    apply (inv_bm _ HI) in Hheld; [|lia]. congruence. }
  apply rd2_Some in Hlast as (trow & Htrow & Hlast).
  apply rd2_Some in Hp as (trow' & Htrow' & Hp). simplify_eq.
  exists trow. split; [done|]. by exists (ct - 1), p.
Qed.

Lemma step_kept s st st' : Inv st → kept st → step s st st' → kept st'.
Proof using All.
  intros HI HK Hstep.
  destruct Hstep as
    [ m Hm Hm1
    | c b r snc bfp bm sm Hm Hc Hb Hr Ht Wsnc Wbfp Wbm Wsm
    | c b r t rt snc bfp bm sm sm' Hm Hc Hb Hr Ht Ht1 Hrt Hlt Wsnc Wbfp Wbm Wsm Wsm'
    | c b r t rt snc Hm Hc Hb Hr Ht Ht1 Hrt Hlt Wsnc ]; [done|..].
  - pose proof (λ j, rd_wr _ _ _ _ j Wsnc) as Esnc.
    pose proof (λ j, rd_wr _ _ _ _ j Wbm) as Ebm.
    intros x cx i y Hx Hi Hy HMx. cbn in *. rewrite Ebm.
    destruct (advance_cases _ _ _ n_nonneg sellers_valid buyers_valid
                _ _ _ _ _ HI Hm Hc Hb Esnc _ _ _ _ Hx Hi Hy)
      as [(-> & -> & ->)|(c0 & Hc0 & Hi0)].
    + by rewrite decide_True.
    + pose proof (HK _ _ _ _ Hc0 Hi0 Hy HMx) as Hheld.
      destruct (decide (y = b)) as [->|]; [|done].
      apply rd_bound in Hc0. simplify_eq; lia.
  - pose proof (λ j, rd_wr _ _ _ _ j Wsnc) as Esnc.
    pose proof (λ j, rd_wr _ _ _ _ j Wbm) as Ebm.
    intros x cx i y Hx Hi Hy HMx. cbn in *. rewrite Ebm.
    destruct (advance_cases _ _ _ n_nonneg sellers_valid buyers_valid
                _ _ _ _ _ HI Hm Hc Hb Esnc _ _ _ _ Hx Hi Hy)
      as [(-> & -> & ->)|(c0 & Hc0 & Hi0)].
    + by rewrite decide_True.
    + pose proof (HK _ _ _ _ Hc0 Hi0 Hy HMx) as Hheld.
      destruct (decide (y = b)) as [->|]; [|done]. exfalso. simplify_eq.
      (* [t], held by [b], is the partner of [b] in the other matching,
         and [b] now prefers [s]: the pair [(s, b)] would block it *)
      pose proof (Inv_seller _ _ _ _ _ _ HI Hm) as Hsn.
      pose proof (inv_bm _ HI _ _ Ht Ht1) as Hts.
      assert (t ≠ s) as Hne by (intros ->; simplify_eq; lia).
      destruct (M_partner s Hsn) as (bM & HbM & HbMn).
      assert (bM ≠ b) as HbMb.
      { intros ->. apply Hne. by eapply M_inj. }
      destruct (proposer_prefers st s c b bM) as (srow & Hsrow & Hpref); try done.
      destruct (inv_rank _ HI _ _ Ht Ht1) as (rt' & Hrt' & Hrank). simplify_eq.
      apply rd2_Some in Hr as (brow & Hbrow & Hr).
      apply rd2_Some in Hrank as (brow' & Hbrow' & Hrank). simplify_eq.
      apply (M_stable s b). exists bM, t, srow, brow.
      destruct M_perfect as (_ & _ & Hinv).
      repeat split; try done; [by apply Hinv|by exists r, rt].
  - pose proof (λ j, rd_wr _ _ _ _ j Wsnc) as Esnc.
    intros x cx i y Hx Hi Hy HMx. cbn in *.
    destruct (advance_cases _ _ _ n_nonneg sellers_valid buyers_valid
                _ _ _ _ _ HI Hm Hc Hb Esnc _ _ _ _ Hx Hi Hy)
      as [(-> & -> & ->)|(c0 & Hc0 & Hi0)]; [|by eapply HK].
    exfalso.
    (* [b] keeps [t] and turns [s] down; were [b] the partner of [s] in
       the other matching, the pair [(t, b)] would block it *)
    pose proof (Inv_seller _ _ _ _ _ _ HI Hm) as Hsn.
    pose proof (Inv_buyer _ _ _ _ _ _ HI Ht) as Hbn.
    pose proof (inv_bm _ HI _ _ Ht Ht1) as Hts.
    assert (t ≠ s) as Hne by (intros ->; simplify_eq; lia).
    pose proof (Inv_seller _ _ _ _ _ _ HI Hts) as Htn.
    destruct (M_partner t Htn) as (bT & HbT & HbTn).
    assert (bT ≠ b) as HbTb.
    { intros ->. apply Hne. by eapply M_inj. }
    destruct (holder_prefers st t b bT) as (trow & Htrow & Hpref); try done; [lia|].
    destruct (inv_rank _ HI _ _ Ht Ht1) as (rt' & Hrt' & Hrank). simplify_eq.
    assert (r ≠ rt) as Hrr.
    { intros ->. congruence. }
    apply rd2_Some in Hr as (brow & Hbrow & Hr).
    apply rd2_Some in Hrank as (brow' & Hbrow' & Hrank). simplify_eq.
    apply (M_stable t b). exists bT, s, trow, brow.
    destruct M_perfect as (_ & _ & Hinv).
    split; [done|]. split; [done|]. split; [by apply Hinv|].
    split; [by intros ->|]. split; [done|]. split; [done|]. split; [done|].
    exists rt, r. split; [done|]. split; [done|lia].
Qed.

Lemma initial_kept : kept (initial n).
Proof.
  intros s c i b Hc Hi. cbn in Hc. rewrite rd_replicate in Hc.
  case_decide; simplify_eq. lia.
Qed.

Lemma visited_kept init cfg :
  Inv init → kept init → rtc exec (AtWhile, init) cfg → kept cfg.2.
Proof using All.
  intros HI HK. revert cfg. apply rtc_ind_r; [done|].
  intros cfg1 cfg2 Hrun Hexec HK1.
  destruct (visited_Inv _ _ _ n_nonneg sellers_valid buyers_valid _ _ HI Hrun)
    as [HI1 Hpc].
  destruct Hexec as [st Hpos|cs st st' Hcs Hp|cs st Hcs]; cbn in *; try done.
  destruct (propose_step _ _ _ n_nonneg sellers_valid buyers_valid st cs HI1)
    as (st2 & Hp2 & Hstep); [lia|].
  simplify_eq. by eapply step_kept.
Qed.

Section FinalOptimal.
Variable st : state.
Hypothesis HI : Inv st.
Hypothesis HK : kept st.
Hypothesis Hdone : bachelor_count st <= 0.

Lemma final_seller_optimal s b bM srow :
  rd (seller_matches st) s = Some b → rd msm s = Some bM →
  rd seller_prefs s = Some srow → ranks_no_later srow b bM.
Proof using All.
  intros Hs HbM Hsrow.
  pose proof (final_seller _ _ _ n_nonneg sellers_valid buyers_valid
                _ HI Hdone _ _ Hs) as Hb1.
  destruct (decide (bM = b)) as [->|Hne].
  - destruct (inv_last _ HI _ _ Hs Hb1) as (c & _ & Hlast).
    apply rd2_Some in Hlast as (srow' & ? & Hlast). simplify_eq.
    exists (c - 1), (c - 1). repeat split; (done || lia).
  - destruct (holder_prefers st s b bM) as (srow' & ? & (i & j & ? & ? & ?));
      try done.
    simplify_eq. exists i, j. repeat split; (done || lia).
Qed.

Lemma final_buyer_pessimal b s sM brow :
  rd (buyer_matches st) b = Some s → rd mbm b = Some sM →
  rd buyer_prefs b = Some brow → ranks_no_later brow sM s.
Proof using All.
  intros Hb HsM Hbrow.
  pose proof (final_buyer _ _ _ n_nonneg sellers_valid buyers_valid
                _ HI Hdone _ _ Hb) as Hs1.
  pose proof (inv_bm _ HI _ _ Hb Hs1) as Hsb.
  pose proof (Inv_seller _ _ _ _ _ _ HI Hsb) as Hsn.
  pose proof (Inv_buyer _ _ _ _ _ _ HI Hb) as Hbn.
  destruct M_perfect as (_ & _ & Hinv).
  pose proof (proj2 (Hinv _ _) HsM) as HsMb.
  destruct (valid_prefs_rd _ _ _ _ buyers_valid Hbrow) as [_ Hperm].
  destruct (is_perm_pos n brow s Hperm Hsn) as [ps Hps].
  destruct (is_perm_pos n brow sM Hperm) as [pM HpM].
  { apply rd_bound in HsMb. destruct M_perfect as (Hp & _ & _).
    rewrite (is_perm_length n msm Hp) in HsMb. lia. }
  destruct (decide (pM <= ps)) as [|Hlt]; [by exists pM, ps|exfalso].
  assert (sM ≠ s) as Hne.
  { intros ->. pose proof (is_perm_inj n brow _ _ _ Hperm Hps HpM). lia. }
  destruct (M_partner s Hsn) as (bM & HbM & HbMn).
  assert (bM ≠ b) as HbMb.
  { intros ->. apply Hne. by eapply M_inj. }
  destruct (holder_prefers st s b bM) as (srow & Hsrow & Hpref); try done; [lia|].
  apply (M_stable s b). exists bM, sM, srow, brow.
  repeat split; try done. exists ps, pM. repeat split; (done || lia).
Qed.

End FinalOptimal.

End Optimal.

(** ** Runs of the loop *)

Section Run.

Variable n : Z.
Variable seller_prefs buyer_prefs : list (list Z).
Hypothesis n_nonneg : 0 <= n.
Hypothesis sellers_valid : valid_prefs n seller_prefs.
Hypothesis buyers_valid : valid_prefs n buyer_prefs.

Local Abbreviation Inv := (Inv n seller_prefs buyer_prefs).
Local Abbreviation exec := (exec n seller_prefs buyer_prefs).

(** The function [while_loop] follows [exec]. *)
Lemma while_loop_exec fuel st st' :
  while_loop n seller_prefs buyer_prefs fuel st = Finished st' →
  rtc exec (AtWhile, st) (AtWhile, st').
Proof using n_nonneg.
  revert st. induction fuel as [|fuel IH]; intros st; cbn [while_loop].
  - case_decide; intros; simplify_eq. apply rtc_refl.
  - case_decide as Hpos; [|intros; simplify_eq; apply rtc_refl].
    destruct (round n seller_prefs buyer_prefs st) as [st1|] eqn:Hround; [|done].
    intros Hrun. eapply rtc_l; [by apply exec_enter|].
    etrans; [by apply round_exec|].
    eapply rtc_l; [apply exec_leave; lia|by apply IH].
Qed.

Lemma exec_cursor cfg cfg' s c c' :
  Inv cfg.2 → (match cfg.1 with AtFor cs => 0 <= cs <= n | AtWhile => True end) →
  exec cfg cfg' →
  rd (seller_next_choices cfg.2) s = Some c →
  rd (seller_next_choices cfg'.2) s = Some c' → c <= c'.
Proof using All.
  intros HI Hpc Hexec.
  destruct Hexec as [st Hpos|cs st st' Hcs Hp|cs st Hcs]; cbn in *.
  1, 3: intros; simplify_eq; lia.
  destruct (propose_step _ _ _ n_nonneg sellers_valid buyers_valid st cs HI)
    as (st2 & Hp2 & Hstep); [lia|].
  simplify_eq. by eapply step_cursor.
Qed.

Lemma exec_Inv cfg cfg' :
  Inv cfg.2 → (match cfg.1 with AtFor cs => 0 <= cs <= n | AtWhile => True end) →
  exec cfg cfg' →
  Inv cfg'.2 ∧ match cfg'.1 with AtFor cs => 0 <= cs <= n | AtWhile => True end.
Proof using All.
  intros HI Hpc Hexec.
  destruct Hexec as [st Hpos|cs st st' Hcs Hp|cs st Hcs]; cbn in *.
  - split; [done|lia].
  - destruct (propose_step _ _ _ n_nonneg sellers_valid buyers_valid st cs HI)
      as (st2 & Hp2 & Hstep); [lia|].
    simplify_eq. split; [by eapply step_Inv|lia].
  - done.
Qed.

(** Along a run a cursor never moves back. *)
Lemma run_cursor cfg cfg' s c c' :
  Inv cfg.2 → (match cfg.1 with AtFor cs => 0 <= cs <= n | AtWhile => True end) →
  rtc exec cfg cfg' →
  rd (seller_next_choices cfg.2) s = Some c →
  rd (seller_next_choices cfg'.2) s = Some c' → c <= c'.
Proof using All.
  intros HI Hpc Hrun. revert c HI Hpc.
  induction Hrun as [cfg|cfg cfg1 cfg' Hexec Hrun IH]; intros c HI Hpc Hc Hc'.
  - simplify_eq. lia.
  - destruct (exec_Inv _ _ HI Hpc Hexec) as [HI1 Hpc1].
    destruct (rd_in_range (seller_next_choices cfg1.2) s) as [c1 Hc1].
    { apply rd_bound in Hc. rewrite (inv_len_snc _ HI1).
      rewrite (inv_len_snc _ HI) in Hc. lia. }
    pose proof (exec_cursor _ _ _ _ _ HI Hpc Hexec Hc Hc1).
    pose proof (IH c1 HI1 Hpc1 Hc1 Hc'). lia.
Qed.

End Run.

(** ** The engine on valid preference tables *)

(** The scenario with [n = 2]: both sellers are accepted by their first
    choice. *)
Example engine_two :
  engine 2 ex_sp2 ex_bp2 4 zeroed
  = Finished (mkState [1; 1] [1; 0] [1; 0] [1; 0] 0 1 [(1, 0); (0, 1)]).
Proof. by vm_compute. Qed.

(** A single seller and buyer: matched with accepted rank 0. *)
Example engine_one :
  engine 1 [[0]] [[0]] 1 zeroed = Finished (mkState [1] [0] [0] [0] 0 0 [(0, 0)]).
Proof. by vm_compute. Qed.

(** Of the two stable matchings of the sample with [n = 3] the loop
    returns the one in which every seller has its first possible choice. *)
Example engine_three :
  ∃ st, engine 3 ex_sp3 ex_bp3 9 zeroed = Finished st ∧
        seller_matches st = [0; 1; 2] ∧
        stable ex_sp3 ex_bp3 [1; 0; 2] [1; 0; 2] ∧
        perfect_matching 3 [1; 0; 2] [1; 0; 2].
Proof.
  eexists. split; [vm_compute; reflexivity|]. split; [reflexivity|]. split.
  - intros s b (b' & s' & srow & brow & Hs & Hbb' & Hb & Hss' & Hsrow & Hbrow
                & (i & j & Hi & Hj & Hij) & (p & q & Hp & Hq & Hpq)).
    pose proof (rd_bound _ _ _ Hs) as Hsn. cbn in Hsn.
    assert (s = 0 ∨ s = 1 ∨ s = 2) as [->|[->| ->] ] by lia;
      vm_compute in Hs, Hsrow; simplify_eq;
      pose proof (rd_bound _ _ _ Hj) as Hjn; cbn in Hjn;
      pose proof (rd_bound _ _ _ Hi) as Hin; cbn in Hin;
      (assert (j = 0 ∨ j = 1 ∨ j = 2) as [->|[->| ->] ] by lia);
      vm_compute in Hj; simplify_eq;
      (assert (i = 0 ∨ i = 1) as [->| ->] by lia);
      vm_compute in Hi; simplify_eq;
      vm_compute in Hb, Hbrow; simplify_eq;
      pose proof (rd_bound _ _ _ Hq) as Hqn; cbn in Hqn;
      pose proof (rd_bound _ _ _ Hp) as Hpn; cbn in Hpn;
      (assert (q = 0 ∨ q = 1 ∨ q = 2) as [->|[->| ->] ] by lia);
      vm_compute in Hq; simplify_eq;
      (assert (p = 0 ∨ p = 1) as [->| ->] by lia);
      vm_compute in Hp; simplify_eq.
  - split; [apply perm_swap|]. split; [apply perm_swap|].
    intros s b. split; intros H; pose proof (rd_bound _ _ _ H) as Hr; cbn in Hr.
    + assert (s = 0 ∨ s = 1 ∨ s = 2) as [->|[->| ->] ] by lia;
        vm_compute in H; by simplify_eq.
    + assert (b = 0 ∨ b = 1 ∨ b = 2) as [->|[->| ->] ] by lia;
        vm_compute in H; by simplify_eq.
Qed.

(** C1 (stability).  On [n] by [n] tables whose rows are permutations of
    [0, n), the proposal loop returns, what it returns is a matching of
    every seller with a buyer (the two arrays are inverse bijections, no
    cell is left at the sentinel), and this matching has no blocking
    pair: no seller [s] and buyer [b], matched to others, such that [s]
    ranks [b] before its buyer and [b] ranks [s] before its seller. *)
Theorem engine_stable n sp bp fuel junk :
  0 <= n → valid_prefs n sp → valid_prefs n bp → n * n <= Z.of_nat fuel →
  ∃ st, engine n sp bp fuel junk = Finished st ∧
        perfect_matching n (seller_matches st) (buyer_matches st) ∧
        stable sp bp (seller_matches st) (buyer_matches st).
Proof.
  intros Hn Hsp Hbp Hfuel.
  destruct (engine_total n sp bp Hn Hsp Hbp fuel junk Hfuel)
    as (st & Hrun & HI & Hbc & _).
  exists st. split; [done|].
  split; [exact (final_perfect n sp bp Hn Hsp Hbp st HI Hbc)|].
  exact (final_stable n sp bp Hn Hsp Hbp st HI Hbc).
Qed.

Lemma engine_stable_witness :
  ∃ st, engine 2 ex_sp2 ex_bp2 4 zeroed = Finished st ∧
        perfect_matching 2 (seller_matches st) (buyer_matches st) ∧
        stable ex_sp2 ex_bp2 (seller_matches st) (buyer_matches st).
Proof.
  apply (engine_stable 2 ex_sp2 ex_bp2 4 zeroed); [lia| | |lia].
  - apply (bool_decide_unpack _). vm_compute. exact I.
  - apply (bool_decide_unpack _). vm_compute. exact I.
Defined.

(** C2 (totality).  On valid tables the two arrays the loop ends with
    are inverse bijections: each holds every identifier of [0, n) exactly
    once, so no cell is left at the sentinel; for [n = 0] the loop body
    is not run at all (no fuel is needed) and both arrays are empty. *)
Theorem engine_perfect n sp bp fuel junk :
  0 <= n → valid_prefs n sp → valid_prefs n bp → n * n <= Z.of_nat fuel →
  ∃ st, engine n sp bp fuel junk = Finished st ∧
        perfect_matching n (seller_matches st) (buyer_matches st) ∧
        (∀ s, rd (seller_matches st) s ≠ Some (-1)) ∧
        (∀ b, rd (buyer_matches st) b ≠ Some (-1)) ∧
        (n = 0 →
         engine n sp bp 0 junk = Finished st ∧ seller_matches st = [] ∧
         buyer_matches st = [] ∧ proposals st = []).
Proof.
  intros Hn Hsp Hbp Hfuel.
  destruct (engine_total n sp bp Hn Hsp Hbp fuel junk Hfuel)
    as (st & Hrun & HI & Hbc & _).
  exists st. split; [done|].
  split; [exact (final_perfect n sp bp Hn Hsp Hbp st HI Hbc)|].
  split; [|split].
  - intros s Hs. exact (final_seller n sp bp Hn Hsp Hbp st HI Hbc s _ Hs eq_refl).
  - intros b Hb. exact (final_buyer n sp bp Hn Hsp Hbp st HI Hbc b _ Hb eq_refl).
  - intros ->. unfold engine in *. rewrite init_state_eq in Hrun |- * by lia.
    assert (st = initial 0) as ->
      by (destruct fuel; cbv in Hrun; by injection Hrun as <-).
    by cbv.
Qed.

Lemma engine_perfect_witness :
  ∃ st, engine 2 ex_sp2 ex_bp2 4 zeroed = Finished st ∧
        perfect_matching 2 (seller_matches st) (buyer_matches st) ∧
        (∀ s, rd (seller_matches st) s ≠ Some (-1)) ∧
        (∀ b, rd (buyer_matches st) b ≠ Some (-1)) ∧
        (2 = 0 →
         engine 2 ex_sp2 ex_bp2 0 zeroed = Finished st ∧ seller_matches st = [] ∧
         buyer_matches st = [] ∧ proposals st = []).
Proof.
  apply (engine_perfect 2 ex_sp2 ex_bp2 4 zeroed); [lia| | |lia].
  - apply (bool_decide_unpack _). vm_compute. exact I.
  - apply (bool_decide_unpack _). vm_compute. exact I.
Defined.

(** C3 (optimality for the sellers).  On valid tables the matching the
    loop returns is a stable perfect matching, and against any stable
    perfect matching [msm], [mbm] of the same tables every seller ranks
    the buyer the loop gives it no later than its buyer under [msm], and
    every buyer ranks its seller under [mbm] no later than the seller the
    loop gives it. *)
Theorem engine_seller_optimal n sp bp fuel junk :
  0 <= n → valid_prefs n sp → valid_prefs n bp → n * n <= Z.of_nat fuel →
  ∃ st, engine n sp bp fuel junk = Finished st ∧
    perfect_matching n (seller_matches st) (buyer_matches st) ∧
    stable sp bp (seller_matches st) (buyer_matches st) ∧
    ∀ msm mbm,
      perfect_matching n msm mbm → stable sp bp msm mbm →
      (∀ s b bM srow,
         rd (seller_matches st) s = Some b → rd msm s = Some bM →
         rd sp s = Some srow → ranks_no_later srow b bM) ∧
      (∀ b s sM brow,
         rd (buyer_matches st) b = Some s → rd mbm b = Some sM →
         rd bp b = Some brow → ranks_no_later brow sM s).
Proof.
  intros Hn Hsp Hbp Hfuel.
  destruct (engine_total n sp bp Hn Hsp Hbp fuel junk Hfuel)
    as (st & Hrun & HI & Hbc & Hvis).
  exists st. split; [done|].
  split; [exact (final_perfect n sp bp Hn Hsp Hbp st HI Hbc)|].
  split; [exact (final_stable n sp bp Hn Hsp Hbp st HI Hbc)|].
  intros msm mbm HMp HMs.
  assert (kept_by_partner sp msm st) as HK.
  { apply (visited_kept n sp bp Hn Hsp Hbp msm mbm HMp HMs (initial n)
             (AtWhile, st)); [by apply initial_Inv|apply initial_kept|done]. }
  split.
  - intros s b bM srow.
    exact (final_seller_optimal n sp bp Hn Hsp Hbp msm mbm HMp HMs st HI HK Hbc
             s b bM srow).
  - intros b s sM brow.
    exact (final_buyer_pessimal n sp bp Hn Hsp Hbp msm mbm HMp HMs st HI HK Hbc
             b s sM brow).
Qed.

Lemma engine_seller_optimal_witness :
  ∃ st, engine 3 ex_sp3 ex_bp3 9 zeroed = Finished st ∧
    perfect_matching 3 (seller_matches st) (buyer_matches st) ∧
    stable ex_sp3 ex_bp3 (seller_matches st) (buyer_matches st) ∧
    ∀ msm mbm,
      perfect_matching 3 msm mbm → stable ex_sp3 ex_bp3 msm mbm →
      (∀ s b bM srow,
         rd (seller_matches st) s = Some b → rd msm s = Some bM →
         rd ex_sp3 s = Some srow → ranks_no_later srow b bM) ∧
      (∀ b s sM brow,
         rd (buyer_matches st) b = Some s → rd mbm b = Some sM →
         rd ex_bp3 b = Some brow → ranks_no_later brow sM s).
Proof.
  apply (engine_seller_optimal 3 ex_sp3 ex_bp3 9 zeroed); [lia| | |lia].
  - apply (bool_decide_unpack _). vm_compute. exact I.
  - apply (bool_decide_unpack _). vm_compute. exact I.
Defined.

(** C4 (acceptance rank).  On valid tables, when the loop ends, each
    buyer [b] holds a seller, and [buyer_final_prefs[b]] is the one
    position of that seller in [buyer_prefs[b]]. *)
Theorem engine_accept_rank n sp bp fuel junk :
  0 <= n → valid_prefs n sp → valid_prefs n bp → n * n <= Z.of_nat fuel →
  ∃ st, engine n sp bp fuel junk = Finished st ∧
    ∀ b, 0 <= b < n →
      ∃ s r, rd (buyer_matches st) b = Some s ∧ s ≠ -1 ∧
             rd (buyer_final_prefs st) b = Some r ∧
             rd2 bp b r = Some s ∧
             ∀ j, rd2 bp b j = Some s → j = r.
Proof.
  intros Hn Hsp Hbp Hfuel.
  destruct (engine_total n sp bp Hn Hsp Hbp fuel junk Hfuel)
    as (st & Hrun & HI & Hbc & _).
  exists st. split; [done|]. intros b Hb.
  destruct (final_rank n sp bp Hn Hsp Hbp st HI Hbc b Hb)
    as (s & r & Hs & Hr & Hrank & Huniq).
  exists s, r. split; [done|].
  split; [exact (final_buyer n sp bp Hn Hsp Hbp st HI Hbc b _ Hs)|done].
Qed.

Lemma engine_accept_rank_witness :
  ∃ st, engine 2 ex_sp2 ex_bp2 4 zeroed = Finished st ∧
    ∀ b, 0 <= b < 2 →
      ∃ s r, rd (buyer_matches st) b = Some s ∧ s ≠ -1 ∧
             rd (buyer_final_prefs st) b = Some r ∧
             rd2 ex_bp2 b r = Some s ∧
             ∀ j, rd2 ex_bp2 b j = Some s → j = r.
Proof.
  apply (engine_accept_rank 2 ex_sp2 ex_bp2 4 zeroed); [lia| | |lia].
  - apply (bool_decide_unpack _). vm_compute. exact I.
  - apply (bool_decide_unpack _). vm_compute. exact I.
Defined.

(** C8 (proposal cursor).  On valid tables every cursor is 0 when the
    loop is entered; in every configuration the run goes through each
    cursor lies in [0, n]; from any such configuration to any later one
    no cursor moves back; and the log of proposals never holds the same
    (seller, buyer) twice.  The state a run of the engine ends in is one
    of these configurations. *)
Theorem cursor_monotone n sp bp junk :
  0 <= n → valid_prefs n sp → valid_prefs n bp →
  ∃ st0, init_state n junk = Some st0 ∧
    (∀ s, 0 <= s < n → rd (seller_next_choices st0) s = Some 0) ∧
    (∀ fuel st, engine n sp bp fuel junk = Finished st →
                visited n sp bp st0 (AtWhile, st)) ∧
    ∀ cfg, visited n sp bp st0 cfg →
      (∀ s, 0 <= s < n →
         ∃ c, rd (seller_next_choices cfg.2) s = Some c ∧ 0 <= c <= n) ∧
      (∀ cfg' s c c',
         rtc (exec n sp bp) cfg cfg' →
         rd (seller_next_choices cfg.2) s = Some c →
         rd (seller_next_choices cfg'.2) s = Some c' → c <= c') ∧
      NoDup (proposals cfg.2).
Proof.
  intros Hn Hsp Hbp. exists (initial n).
  split; [by apply init_state_eq|]. split; [|split].
  - intros s Hs. cbn. rewrite rd_replicate. case_decide; [done|lia].
  - intros fuel st. unfold engine. rewrite init_state_eq by done.
    by apply while_loop_exec.
  - intros cfg Hvis.
    destruct (visited_Inv n sp bp Hn Hsp Hbp (initial n) cfg) as [HI Hpc];
      [by apply initial_Inv|done|].
    split; [|split].
    + intros s Hs.
      destruct (rd_in_range (seller_next_choices cfg.2) s) as [c Hc].
      { rewrite (inv_len_snc _ HI). lia. }
      exists c. split; [done|]. by eapply (inv_cursor _ HI).
    + intros cfg' s c c' Hrun.
      exact (run_cursor n sp bp Hn Hsp Hbp cfg cfg' s c c' HI Hpc Hrun).
    + apply (inv_log_NoDup _ HI).
Qed.

Lemma cursor_monotone_witness :
  ∃ st0, init_state 2 zeroed = Some st0 ∧
    (∀ s, 0 <= s < 2 → rd (seller_next_choices st0) s = Some 0) ∧
    (∀ fuel st, engine 2 ex_sp2 ex_bp2 fuel zeroed = Finished st →
                visited 2 ex_sp2 ex_bp2 st0 (AtWhile, st)) ∧
    ∀ cfg, visited 2 ex_sp2 ex_bp2 st0 cfg →
      (∀ s, 0 <= s < 2 →
         ∃ c, rd (seller_next_choices cfg.2) s = Some c ∧ 0 <= c <= 2) ∧
      (∀ cfg' s c c',
         rtc (exec 2 ex_sp2 ex_bp2) cfg cfg' →
         rd (seller_next_choices cfg.2) s = Some c →
         rd (seller_next_choices cfg'.2) s = Some c' → c <= c') ∧
      NoDup (proposals cfg.2).
Proof.
  apply (cursor_monotone 2 ex_sp2 ex_bp2 zeroed); [lia| |].
  - apply (bool_decide_unpack _). vm_compute. exact I.
  - apply (bool_decide_unpack _). vm_compute. exact I.
Defined.

(** C9 (termination).  On valid tables the loop returns within [n * n]
    rounds, having made at most [n] proposals for each seller and at most
    [n * n] proposals in all. *)
Theorem engine_terminates n sp bp fuel junk :
  0 <= n → valid_prefs n sp → valid_prefs n bp → n * n <= Z.of_nat fuel →
  ∃ st, engine n sp bp fuel junk = Finished st ∧
        Z.of_nat (length (proposals st)) <= n * n ∧
        ∀ s, Z.of_nat (length (filter (λ p, p.1 = s) (proposals st))) <= n.
Proof.
  intros Hn Hsp Hbp Hfuel.
  destruct (engine_total n sp bp Hn Hsp Hbp fuel junk Hfuel)
    as (st & Hrun & HI & Hbc & _).
  exists st. split; [done|]. split.
  - exact (log_bound n sp bp Hsp st HI).
  - intros s. exact (log_bound_seller n sp bp Hn Hsp st s HI).
Qed.

Lemma engine_terminates_witness :
  ∃ st, engine 3 ex_sp3 ex_bp3 9 zeroed = Finished st ∧
        Z.of_nat (length (proposals st)) <= 3 * 3 ∧
        ∀ s, Z.of_nat (length (filter (λ p, p.1 = s) (proposals st))) <= 3.
Proof.
  apply (engine_terminates 3 ex_sp3 ex_bp3 9 zeroed); [lia| | |lia].
  - apply (bool_decide_unpack _). vm_compute. exact I.
  - apply (bool_decide_unpack _). vm_compute. exact I.
Defined.

(** ** The preference generator *)

(** Exchanging two cells of an array permutes it. *)
Lemma insert_head_Permutation (t : list Z) (j : nat) h y :
  t !! j = Some y → y :: <[j := h]> t ≡ₚ h :: t.
Proof.
  revert j. induction t as [|x t IH]; intros [|j] Hj; simplify_eq/=.
  - apply perm_swap.
  - rewrite perm_swap. rewrite (IH _ Hj). apply perm_swap.
Qed.

Lemma swap_Permutation (a : list Z) (i j : nat) x y :
  a !! i = Some x → a !! j = Some y → <[i := y]> (<[j := x]> a) ≡ₚ a.
Proof.
  revert i j. induction a as [|h t IH]; intros [|i] [|j] Hi Hj; simplify_eq/=.
  - done.
  - by apply insert_head_Permutation.
  - by apply insert_head_Permutation.
  - f_equiv. by apply IH.
Qed.

Section GeneratorFacts.

Variable RAND_MAX : Z.
Variable rand : nat → Z.
Hypothesis rand_range : ∀ k, 0 <= rand k <= RAND_MAX.

Variable n : Z.
Hypothesis n_nonneg : 0 <= n.


(** Line 12: the index drawn lies between [i] and [n - 1]. *)
Lemma rand_index i r :
  0 <= r <= RAND_MAX → 0 <= i < n - 1 →
  i <= i + Z.quot r (Z.quot RAND_MAX (n - i) + 1) < n.
Proof.
  intros Hr Hi.
  rewrite (Z.quot_div_nonneg RAND_MAX (n - i)) by lia.
  pose proof (Z.div_pos RAND_MAX (n - i) ltac:(lia) ltac:(lia)) as Hq.
  rewrite (Z.quot_div_nonneg r) by lia.
  pose proof (Z.div_pos r (RAND_MAX / (n - i) + 1) ltac:(lia) ltac:(lia)).
  assert (r / (RAND_MAX / (n - i) + 1) < n - i); [|lia].
  apply Z.div_lt_upper_bound; [lia|].
  pose proof (Z.div_mod RAND_MAX (n - i) ltac:(lia)).
  pose proof (Z.mod_pos_bound RAND_MAX (n - i) ltac:(lia)). nia.
Qed.

(** Lines 10-17: the shuffle never faults on an array of [n] cells,
    permutes it, and calls [rand()] once per iteration. *)
Lemma shuffle_array_spec (a : list Z) calls :
  length a = Z.to_nat n →
  ∃ a', shuffle_array RAND_MAX rand a n calls
        = Some (a', (calls + Z.to_nat (n - 1))%nat) ∧
        a' ≡ₚ a.
Proof.
  intros Hlen.
  destruct (decide (n - 1 <= 0)) as [Hsmall|Hbig].
  { exists a. unfold shuffle_array. rewrite for_range_nonpos by done.
    split; [|done]. do 2 f_equal. lia. }
  destruct (for_range_inv
    (λ i st, st.1 ≡ₚ a ∧ st.2 = (calls + Z.to_nat i)%nat)
    (shuffle_body RAND_MAX rand n) (n - 1) (a, calls))
    as ([a' c'] & Hrun & Hperm & Hc);
    [lia|split; [done|cbn; lia]| |].
  - intros i [b c] Hi [Hb Hc]. cbn in Hb, Hc.
    assert (length b = Z.to_nat n) as Lb by (by rewrite Hb).
    pose proof (rand_index i (rand c) (rand_range c) Hi) as Hj.
    unfold shuffle_body. cbn [fst snd].
    set (j := i + Z.quot (rand c) (Z.quot RAND_MAX (n - i) + 1)) in *.
    destruct (rd_in_range b j) as [t Ht]; [lia|].
    destruct (rd_in_range b i) as [ai Hai]; [lia|].
    rewrite Ht, Hai. cbn [mbind option_bind].
    rewrite (wr_in_range b j ai) by lia. cbn [mbind option_bind].
    rewrite wr_in_range by (rewrite length_insert; lia).
    cbn [mbind option_bind]. eexists. split; [done|]. cbn [fst snd]. split; [|lia].
    rewrite <-Hb. apply rd_Some in Ht as [_ Ht]. apply rd_Some in Hai as [_ Hai].
    by apply swap_Permutation.
  - exists a'. unfold shuffle_array. rewrite Hrun. cbn in Hperm, Hc.
    by subst c'.
Qed.

Lemma rd_None {A} (a : list A) i :
  ¬ (0 <= i < Z.of_nat (length a)) → rd a i = None.
Proof.
  intros Hi. unfold rd. case_decide; [|done]. apply lookup_ge_None. lia.
Qed.

Lemma rd_ext_length {A} (a b : list A) :
  length a = length b →
  (∀ i, 0 <= i < Z.of_nat (length a) → rd a i = rd b i) → a = b.
Proof.
  intros Hlen Hrd. apply rd_ext. intros i.
  destruct (decide (0 <= i < Z.of_nat (length a))); [by apply Hrd|].
  rewrite !rd_None; (done || lia).
Qed.

Lemma rd_seqZ k : rd (seqZ 0 n) k = if decide (0 <= k < n) then Some k else None.
Proof.
  case_decide as Hk.
  - apply rd_Some. split; [lia|]. rewrite lookup_seqZ. lia.
  - apply rd_None. rewrite length_seqZ. lia.
Qed.

(** Lines 48-50: the copy loop replaces row [i] of the table by
    [randlist]. *)
Lemma copy_row_spec (rl : list Z) i (table : list (list Z)) row0 :
  length rl = Z.to_nat n → rd table i = Some row0 → length row0 = Z.to_nat n →
  copy_row n rl i table = wr table i rl.
Proof.
  intros Lrl Hrow0 Lrow0. pose proof (rd_bound _ _ _ Hrow0) as Hi.
  destruct (for_range_inv
    (λ j tbl, ∃ row, length row = Z.to_nat n ∧ wr table i row = Some tbl ∧
                     ∀ k, 0 <= k < j → rd row k = rd rl k)
    (λ j tbl, v ← rd rl j; wr2 tbl i j v) n table)
    as (tbl & Hrun & row & Lrow & Htbl & Hcells); [done| | |].
  - exists row0. split; [done|]. split; [|intros; lia].
    rewrite wr_in_range by done. f_equal. apply list_insert_id.
    by apply rd_Some in Hrow0 as [_ ?].
  - intros j tbl Hj (row & Lrow & Htbl & Hcells).
    destruct (rd_in_range rl j) as [v Hv]; [lia|].
    rewrite Hv. cbn [mbind option_bind]. unfold wr2.
    rewrite (rd_wr_eq _ _ _ _ Htbl). cbn [mbind option_bind].
    rewrite (wr_in_range row j v) by lia. cbn [mbind option_bind].
    apply wr_Some in Htbl as [_ ->].
    rewrite wr_in_range by (rewrite length_insert; lia).
    rewrite list_insert_insert_eq.
    eexists. split; [done|]. exists (<[Z.to_nat j := v]> row).
    split; [by rewrite length_insert|]. split; [by apply wr_in_range|].
    intros k Hk. erewrite rd_wr by (apply wr_in_range; lia).
    case_decide; [by subst|]. apply Hcells. lia.
  - unfold copy_row. rewrite Hrun, <-Htbl. do 2 f_equal.
    apply rd_ext_length; [lia|]. intros k Hk. apply Hcells. lia.
Qed.

(** Lines 41-44. *)
Lemma gen_init_spec junk :
  gen_init n junk =
  Some (mkGen (seqZ 0 n) (cells2 (u_seller_prefs junk) n)
          (cells2 (u_buyer_prefs junk) n) O).
Proof.
  destruct (for_range_inv
    (λ j a, length a = Z.to_nat n ∧ ∀ k, 0 <= k < j → rd a k = Some k)
    (λ i a, wr a i i) n (cells (u_randlist junk) n))
    as (a & Hrun & La & Hcells); [done| | |].
  - split; [by rewrite length_cells|intros; lia].
  - intros j a Hj [La Hcells]. rewrite wr_in_range by lia.
    eexists. split; [done|]. split; [by rewrite length_insert|].
    intros k Hk. erewrite rd_wr by (apply wr_in_range; lia).
    case_decide; [by subst|]. apply Hcells. lia.
  - unfold gen_init. rewrite Hrun. cbn [mbind option_bind]. do 2 f_equal.
    apply rd_ext_length; [by rewrite length_seqZ|].
    intros k Hk. rewrite rd_seqZ, decide_True by lia. apply Hcells. lia.
Qed.

(** Lines 46-55: what holds after [i] iterations of the generation loop.
    The buffer is never reset: each seller row is the shuffle of the
    buffer as the previous iteration left it, each buyer row the shuffle
    of the seller row just made. *)
Lemma generate_spec junk :
  ∃ g, generate RAND_MAX rand n junk = Some g ∧
    length (g_seller_prefs g) = Z.to_nat n ∧
    length (g_buyer_prefs g) = Z.to_nat n ∧
    ∀ i, 0 <= i < n →
      ∃ prev srow brow,
        buffer_before n (g_buyer_prefs g) i = Some prev ∧
        rd (g_seller_prefs g) i = Some srow ∧
        rd (g_buyer_prefs g) i = Some brow ∧
        is_perm n srow ∧ is_perm n brow ∧
        shuffled_from RAND_MAX rand n prev srow
          (2 * Z.to_nat i * Z.to_nat (n - 1)) ∧
        shuffled_from RAND_MAX rand n srow brow
          ((2 * Z.to_nat i + 1) * Z.to_nat (n - 1)).
Proof.
  unfold generate. rewrite gen_init_spec. cbn [mbind option_bind].
  destruct (for_range_inv
    (λ j g,
       length (g_seller_prefs g) = Z.to_nat n ∧
       length (g_buyer_prefs g) = Z.to_nat n ∧
       (∀ k row, rd (g_seller_prefs g) k = Some row → length row = Z.to_nat n) ∧
       (∀ k row, rd (g_buyer_prefs g) k = Some row → length row = Z.to_nat n) ∧
       is_perm n (g_randlist g) ∧
       buffer_before n (g_buyer_prefs g) j = Some (g_randlist g) ∧
       g_calls g = (2 * Z.to_nat j * Z.to_nat (n - 1))%nat ∧
       ∀ i, 0 <= i < j →
         ∃ prev srow brow,
           buffer_before n (g_buyer_prefs g) i = Some prev ∧
           rd (g_seller_prefs g) i = Some srow ∧
           rd (g_buyer_prefs g) i = Some brow ∧
           is_perm n srow ∧ is_perm n brow ∧
           shuffled_from RAND_MAX rand n prev srow
             (2 * Z.to_nat i * Z.to_nat (n - 1)) ∧
           shuffled_from RAND_MAX rand n srow brow
             ((2 * Z.to_nat i + 1) * Z.to_nat (n - 1)))
    (gen_body RAND_MAX rand n) n
    (mkGen (seqZ 0 n) (cells2 (u_seller_prefs junk) n)
       (cells2 (u_buyer_prefs junk) n) O))
    as (g & Hrun & L1 & L2 & _ & _ & _ & _ & _ & Hrows); [done| | |].
  - cbn [g_randlist g_seller_prefs g_buyer_prefs g_calls].
    rewrite !length_cells2.
    split; [done|]. split; [done|].
    split; [|split];
      [| |split; [by unfold is_perm|split; [done|split; [lia|intros; lia]]]].
    + intros k row Hk. by eapply cells2_row.
    + intros k row Hk. by eapply cells2_row.
  - intros j [rl sp bp calls] Hj (L1 & L2 & R1 & R2 & Hrl & Hbuf & Hcalls & Hrows).
    cbn [g_randlist g_seller_prefs g_buyer_prefs g_calls]
      in L1, L2, R1, R2, Hrl, Hbuf, Hcalls, Hrows.
    subst calls.
    unfold gen_body. cbn [g_randlist g_seller_prefs g_buyer_prefs g_calls].
    destruct (shuffle_array_spec rl (2 * Z.to_nat j * Z.to_nat (n - 1)))
      as (r1 & Hs1 & Hp1); [by apply is_perm_length|].
    rewrite Hs1. cbn [mbind option_bind fst snd].
    assert (is_perm n r1) as Hr1 by (unfold is_perm; by rewrite Hp1).
    destruct (rd_in_range sp j) as [srow0 Hsrow0]; [lia|].
    rewrite (copy_row_spec r1 j sp srow0);
      [|by apply is_perm_length|done|by eapply R1].
    rewrite (wr_in_range sp j r1) by lia. cbn [mbind option_bind].
    destruct (shuffle_array_spec r1
                (2 * Z.to_nat j * Z.to_nat (n - 1) + Z.to_nat (n - 1)))
      as (r2 & Hs2 & Hp2); [by apply is_perm_length|].
    rewrite Hs2. cbn [mbind option_bind fst snd].
    assert (is_perm n r2) as Hr2 by (unfold is_perm; by rewrite Hp2).
    destruct (rd_in_range bp j) as [brow0 Hbrow0]; [lia|].
    rewrite (copy_row_spec r2 j bp brow0);
      [|by apply is_perm_length|done|by eapply R2].
    pose proof (wr_in_range sp j r1 ltac:(lia)) as Wsp.
    pose proof (wr_in_range bp j r2 ltac:(lia)) as Wbp.
    rewrite Wbp. cbn [mbind option_bind].
    eexists. split; [done|].
    cbn [g_randlist g_seller_prefs g_buyer_prefs g_calls].
    rewrite !length_insert.
    split; [done|]. split; [done|]. split; [|split]; [| |split; [done|split; [|split]]].
    + intros k row. rewrite (rd_wr _ _ _ _ k Wsp).
      case_decide; intros; simplify_eq; [by apply is_perm_length|by eapply R1].
    + intros k row. rewrite (rd_wr _ _ _ _ k Wbp).
      case_decide; intros; simplify_eq; [by apply is_perm_length|by eapply R2].
    + unfold buffer_before. rewrite decide_False by lia.
      replace (j + 1 - 1) with j by lia. by rewrite (rd_wr_eq _ _ _ _ Wbp).
    + lia.
    + intros i Hi. destruct (decide (i = j)) as [->|Hij].
      * exists rl, r1, r2.
        split.
        { unfold buffer_before in *. case_decide; [done|].
          rewrite (rd_wr_ne _ _ _ _ _ Wbp) by lia. done. }
        split; [by rewrite (rd_wr_eq _ _ _ _ Wsp)|].
        split; [by rewrite (rd_wr_eq _ _ _ _ Wbp)|].
        split; [done|]. split; [done|]. split; [by eexists|].
        eexists. rewrite <-Hs2. f_equal. lia.
      * destruct (Hrows i) as (prev & srow & brow & Hprev & Hsrow & Hbrow & Hrest);
          [lia|].
        exists prev, srow, brow.
        split.
        { unfold buffer_before in *. case_decide; [done|].
          rewrite (rd_wr_ne _ _ _ _ _ Wbp) by lia. done. }
        split; [by rewrite (rd_wr_ne _ _ _ _ _ Wsp)|].
        split; [by rewrite (rd_wr_ne _ _ _ _ _ Wbp)|done].
  - exists g. split; [done|]. split; [done|]. split; [done|]. done.
Qed.

End GeneratorFacts.

(** C7 (generated rows).  For [n >= 0] and any sequence of values of
    [rand()] within [0, RAND_MAX], the generator returns two tables of [n]
    rows, every row of which is a permutation of [0, n). *)
Theorem generated_rows_are_permutations RAND_MAX rand n junk :
  0 <= n → (∀ k, 0 <= rand k <= RAND_MAX) →
  ∃ g, generate RAND_MAX rand n junk = Some g ∧
       length (g_seller_prefs g) = Z.to_nat n ∧
       length (g_buyer_prefs g) = Z.to_nat n ∧
       Forall (λ row, row ≡ₚ seqZ 0 n) (g_seller_prefs g) ∧
       Forall (λ row, row ≡ₚ seqZ 0 n) (g_buyer_prefs g).
Proof.
  intros Hn Hrand.
  destruct (generate_spec RAND_MAX rand Hrand n Hn junk) as (g & Hg & L1 & L2 & Hrows).
  exists g. split; [done|]. split; [done|]. split; [done|].
  split; apply Forall_forall; intros row [i Hi]%elem_of_rd.
  - pose proof (rd_bound _ _ _ Hi).
    destruct (Hrows i) as (_ & srow & _ & _ & ? & _ & ? & _); [lia|].
    by simplify_eq.
  - pose proof (rd_bound _ _ _ Hi).
    destruct (Hrows i) as (_ & _ & brow & _ & _ & ? & _ & ? & _); [lia|].
    by simplify_eq.
Qed.

Lemma generated_rows_are_permutations_witness :
  ∃ g, generate 32767 (λ _, 20000) 3 zeroed = Some g ∧
       length (g_seller_prefs g) = Z.to_nat 3 ∧
       length (g_buyer_prefs g) = Z.to_nat 3 ∧
       Forall (λ row, row ≡ₚ seqZ 0 3) (g_seller_prefs g) ∧
       Forall (λ row, row ≡ₚ seqZ 0 3) (g_buyer_prefs g).
Proof.
  apply (generated_rows_are_permutations 32767 (λ _, 20000) 3 zeroed); [lia|].
  intros k. lia.
Defined.

(** C6 as stated fails: with [n = 2] and a [rand()] that always returns
    20000 every shuffle exchanges the two cells, so the first buyer row is
    [0; 1], the shuffle of the seller row [1; 0] before it, whereas a
    shuffle of the identity sequence can only give [1; 0]. *)
Lemma generator_rows_not_fresh :
  ∃ g, generate 32767 (λ _, 20000) 2 zeroed = Some g ∧
       ∃ row, row ∈ g_buyer_prefs g ∧ ¬ fresh_shuffle 32767 (λ _, 20000) 2 row.
Proof.
  eexists. split; [vm_compute; reflexivity|].
  exists [0; 1]. split; [by left|].
  intros (calls & calls' & Hshuffle). vm_compute in Hshuffle. discriminate.
Qed.

(** C6 (amended).  The buffer [randlist] is set to the identity sequence
    once and never reset: the seller row of iteration [i] is the shuffle
    of the buffer as iteration [i - 1] left it (the identity sequence for
    [i = 0], the buyer row [i - 1] otherwise), and the buyer row of
    iteration [i] is the shuffle of that seller row; the shuffles consume
    the values of [rand()] one after the other. *)
Theorem generator_reuses_buffer RAND_MAX rand n junk :
  0 <= n → (∀ k, 0 <= rand k <= RAND_MAX) →
  ∃ g, generate RAND_MAX rand n junk = Some g ∧
    ∀ i, 0 <= i < n →
      ∃ prev srow brow,
        buffer_before n (g_buyer_prefs g) i = Some prev ∧
        rd (g_seller_prefs g) i = Some srow ∧
        rd (g_buyer_prefs g) i = Some brow ∧
        shuffled_from RAND_MAX rand n prev srow
          (2 * Z.to_nat i * Z.to_nat (n - 1)) ∧
        shuffled_from RAND_MAX rand n srow brow
          ((2 * Z.to_nat i + 1) * Z.to_nat (n - 1)).
Proof.
  intros Hn Hrand.
  destruct (generate_spec RAND_MAX rand Hrand n Hn junk) as (g & Hg & _ & _ & Hrows).
  exists g. split; [done|]. intros i Hi.
  destruct (Hrows i Hi) as (prev & srow & brow & ? & ? & ? & _ & _ & ? & ?).
  by exists prev, srow, brow.
Qed.

Lemma generator_reuses_buffer_witness :
  ∃ g, generate 32767 (λ _, 20000) 2 zeroed = Some g ∧
    ∀ i, 0 <= i < 2 →
      ∃ prev srow brow,
        buffer_before 2 (g_buyer_prefs g) i = Some prev ∧
        rd (g_seller_prefs g) i = Some srow ∧
        rd (g_buyer_prefs g) i = Some brow ∧
        shuffled_from 32767 (λ _, 20000) 2 prev srow
          (2 * Z.to_nat i * Z.to_nat (2 - 1)) ∧
        shuffled_from 32767 (λ _, 20000) 2 srow brow
          ((2 * Z.to_nat i + 1) * Z.to_nat (2 - 1)).
Proof.
  apply (generator_reuses_buffer 32767 (λ _, 20000) 2 zeroed); [lia|].
  intros k. lia.
Defined.

(** ** The command line *)

Lemma run_zero RAND_MAX rand fuel junk :
  run RAND_MAX rand fuel junk 0 = Exited 0 empty_report (Some (initial 0)).
Proof. destruct fuel; reflexivity. Qed.

(** C5 as stated fails: the argument [abc] is not an integer, yet the
    program does not stop with the usage message; it runs to the end with
    [n = 0] and exit status 0. *)
Lemma unparsable_size_is_accepted :
  main 32767 (λ _, 0) 0 zeroed ["./sm"; "abc"]%string
  = Exited 0 empty_report (Some (initial 0)).
Proof. reflexivity. Qed.

(** What [atoi] returns fits the [int] it is stored in; beyond the range
    of [int] the digits wrap. *)
Lemma atoi_int a : - 2 ^ 31 <= atoi a < 2 ^ 31.
Proof.
  unfold atoi, to_int.
  pose proof (Z.mod_pos_bound (strtol a + 2 ^ 31) (2 ^ 32) ltac:(lia)). lia.
Qed.

Example atoi_wraps :
  atoi "42" = 42 ∧ atoi "  -12x" = -12 ∧
  atoi "2147483648" = -2147483648 ∧ atoi "4294967298" = 2.
Proof. by vm_compute. Qed.

(** Text that does not start, after its white space and sign, with a
    digit is read as 0. *)
Lemma atoi_no_digit a : starts_with_digit a = false → atoi a = 0.
Proof.
  unfold starts_with_digit, atoi, strtol. intros Hd.
  assert (digits 0 (unsigned_part a) = 0) as ->.
  { destruct (unsigned_part a) as [|c s']; [done|]. cbn [digits].
    apply bool_decide_eq_false in Hd.
    destruct (digit_of c) as [d|]; [|done]. exfalso. apply Hd. by eexists. }
  by destruct (negative a).
Qed.

(** C5 (amended).  Without a size argument the program prints the usage
    line and exits with status 1, and neither the generator nor the
    proposal loop is reached.  With one argument there is no check of it:
    the program runs with the [int] [n = atoi(argv[1])], whatever the
    argument is; so every argument that does not start (after white
    space and a sign) with a digit, such as [abc], is taken as [n = 0],
    and the run ends normally, with exit status 0 and empty tables. *)
Theorem usage_only_without_argument RAND_MAX rand fuel junk :
  (∀ prog, main RAND_MAX rand fuel junk [prog]
           = Exited 1 usage_message None) ∧
  (∀ prog a, main RAND_MAX rand fuel junk [prog; a]
             = run RAND_MAX rand fuel junk (atoi a)) ∧
  (∀ a, - 2 ^ 31 <= atoi a < 2 ^ 31) ∧
  atoi "abc" = 0 ∧
  run RAND_MAX rand fuel junk 0 = Exited 0 empty_report (Some (initial 0)) ∧
  (∀ prog a, starts_with_digit a = false →
             main RAND_MAX rand fuel junk [prog; a]
             = Exited 0 empty_report (Some (initial 0))).
Proof.
  split; [done|]. split; [done|]. split; [apply atoi_int|].
  split; [done|]. split; [apply run_zero|].
  intros prog a Hd. unfold main.
  change (parse_args [prog; a]) with (Some (atoi a)).
  rewrite (atoi_no_digit a Hd). apply run_zero.
Qed.

Lemma usage_only_without_argument_witness :
  main 32767 (λ _, 0) 0 zeroed ["./sm"; " -x12"]%string
  = Exited 0 empty_report (Some (initial 0)).
Proof.
  apply (proj2 (proj2 (proj2 (proj2 (proj2
           (usage_only_without_argument 32767 (λ _, 0) 0 zeroed)))))).
  by vm_compute.
Defined.

(** C10 (more than one argument).  With [argc > 2] no usage error is
    reported: [n] stays 0, the proposal loop is not entered (no fuel is
    needed and no proposal is made), and the program prints the empty
    tables and the empty list of matches, exactly as for the argument
    [0]. *)
Theorem extra_arguments_run_as_zero RAND_MAX rand fuel junk argv :
  (2 < length argv)%nat →
  parse_args argv = Some 0 ∧
  main RAND_MAX rand fuel junk argv = Exited 0 empty_report (Some (initial 0)) ∧
  main RAND_MAX rand 0 junk argv = main RAND_MAX rand fuel junk argv ∧
  proposals (initial 0) = [] ∧
  main RAND_MAX rand fuel junk argv
  = main RAND_MAX rand fuel junk ["./sm"; "0"]%string.
Proof.
  intros Hargc.
  assert (parse_args argv = Some 0) as Hparse.
  { unfold parse_args. rewrite !decide_False by lia. done. }
  split; [done|]. unfold main. rewrite Hparse.
  change (parse_args ["./sm"; "0"]%string) with (Some 0).
  rewrite !run_zero. done.
Qed.

Lemma extra_arguments_run_as_zero_witness :
  parse_args ["./sm"; "3"; "4"]%string = Some 0 ∧
  main 32767 (λ _, 20000) 5 zeroed ["./sm"; "3"; "4"]%string
  = Exited 0 empty_report (Some (initial 0)) ∧
  main 32767 (λ _, 20000) 0 zeroed ["./sm"; "3"; "4"]%string
  = main 32767 (λ _, 20000) 5 zeroed ["./sm"; "3"; "4"]%string ∧
  proposals (initial 0) = [] ∧
  main 32767 (λ _, 20000) 5 zeroed ["./sm"; "3"; "4"]%string
  = main 32767 (λ _, 20000) 5 zeroed ["./sm"; "0"]%string.
Proof.
  apply (extra_arguments_run_as_zero 32767 (λ _, 20000) 5 zeroed
           ["./sm"; "3"; "4"]%string).
  simpl. lia.
Defined.

(** ** Further properties of the proposal loop *)

Lemma unmatched_le_length sm : unmatched sm <= Z.of_nat (length sm).
Proof.
  induction sm as [|x sm IH]; [done|]. cbn [unmatched length].
  case_decide; lia.
Qed.

(** Lines 59-72 write every cell they declare, for any [n]. *)
Lemma init_state_any n junk : init_state n junk = Some (initial n).
Proof.
  destruct (decide (0 <= n)) as [Hn|Hn]; [by apply init_state_eq|].
  unfold init_state. rewrite for_range_nonpos by lia.
  unfold declared, initial, cells. by replace (Z.to_nat n) with 0%nat by lia.
Qed.

Section Along.

Variable n : Z.
Variable seller_prefs buyer_prefs : list (list Z).
Hypothesis n_nonneg : 0 <= n.
Hypothesis sellers_valid : valid_prefs n seller_prefs.
Hypothesis buyers_valid : valid_prefs n buyer_prefs.

Local Abbreviation Inv := (Inv n seller_prefs buyer_prefs).
Local Abbreviation step := (step seller_prefs buyer_prefs).
Local Abbreviation exec := (exec n seller_prefs buyer_prefs).

(** A property of states that every iteration keeps holds in every
    configuration of a run. *)
Lemma visited_preserved (P : state → Prop) init cfg :
  Inv init → P init →
  (∀ s st st', Inv st → 0 <= s < n → P st → step s st st' → P st') →
  rtc exec (AtWhile, init) cfg → P cfg.2.
Proof using All.
  intros HI HP Hstep. revert cfg. apply rtc_ind_r; [done|].
  intros cfg1 cfg2 Hrun Hexec HP1.
  destruct (visited_Inv _ _ _ n_nonneg sellers_valid buyers_valid _ _ HI Hrun)
    as [HI1 Hpc].
  destruct Hexec as [st Hpos|cs st st' Hcs Hp|cs st Hcs]; cbn in *; try done.
  destruct (propose_step _ _ _ n_nonneg sellers_valid buyers_valid st cs HI1)
    as (st2 & Hp2 & Hst); [lia|].
  simplify_eq. eapply (Hstep cs st); (done || lia).
Qed.

(** A reflexive and transitive relation that every iteration respects
    relates any configuration of a run to any later one. *)
Lemma run_related (R : state → state → Prop) cfg cfg' :
  (∀ st, R st st) → (∀ a b c, R a b → R b c → R a c) →
  (∀ s st st', Inv st → 0 <= s < n → step s st st' → R st st') →
  Inv cfg.2 → (match cfg.1 with AtFor cs => 0 <= cs <= n | AtWhile => True end) →
  rtc exec cfg cfg' → R cfg.2 cfg'.2.
Proof using All.
  intros Hrefl Htrans Hstep HI Hpc Hrun. revert HI Hpc.
  induction Hrun as [cfg|cfg cfg1 cfg' Hexec Hrun IH]; intros HI Hpc; [done|].
  destruct (exec_Inv _ _ _ n_nonneg sellers_valid buyers_valid _ _ HI Hpc Hexec)
    as [HI1 Hpc1].
  apply (Htrans _ cfg1.2); [|by apply IH].
  destruct Hexec as [st Hpos|cs st st' Hcs Hp|cs st Hcs]; cbn in *; try done.
  destruct (propose_step _ _ _ n_nonneg sellers_valid buyers_valid st cs HI)
    as (st2 & Hp2 & Hst); [lia|].
  simplify_eq. eapply (Hstep cs); (done || lia).
Qed.

(** What a proposal changes of the cursors and of the log. *)
Lemma step_proposal s st st' :
  step s st st' →
  st' = st ∨
  ∃ c b, rd (seller_matches st) s = Some (-1) ∧
         rd (seller_next_choices st) s = Some c ∧
         rd2 seller_prefs s c = Some b ∧
         (∀ j, rd (seller_next_choices st') j
               = if decide (j = s) then Some (c + 1)
                 else rd (seller_next_choices st) j) ∧
         proposals st' = (s, b) :: proposals st.
Proof.
  destruct 1; [by left|right..]; eexists _, _;
    (split; [done|]); (split; [done|]); (split; [done|]); (split; [|done]);
    intros j; cbn [seller_next_choices]; by erewrite rd_wr.
Qed.

(** The buyers a seller has proposed to, oldest first, are the first
    entries of its list, as many as its cursor says. *)
Lemma step_in_order s st st' :
  Inv st → step s st st' →
  (∀ x c srow, rd (seller_next_choices st) x = Some c →
     rd seller_prefs x = Some srow →
     (λ p, p.2) <$> filter (λ p, p.1 = x) (proposals st)
     = reverse (take (Z.to_nat c) srow)) →
  ∀ x c srow, rd (seller_next_choices st') x = Some c →
     rd seller_prefs x = Some srow →
     (λ p, p.2) <$> filter (λ p, p.1 = x) (proposals st')
     = reverse (take (Z.to_nat c) srow).
Proof.
  intros HI Hstep IH x cx srow Hx Hsrow.
  destruct (step_proposal _ _ _ Hstep) as [->|(c & b & Hm & Hc & Hb & Esnc & ->)];
    [by apply IH|].
  pose proof (inv_cursor _ HI _ _ Hc) as Hc0.
  rewrite Esnc in Hx. case_decide as Hxs.
  - simplify_eq. rewrite filter_cons_True by done. cbn [fmap list_fmap snd].
    rewrite (IH s c srow Hc Hsrow).
    apply rd2_Some in Hb as (srow' & ? & Hb). simplify_eq.
    apply rd_Some in Hb as [_ Hb].
    replace (Z.to_nat (c + 1)) with (S (Z.to_nat c)) by lia.
    by rewrite (take_S_r _ _ _ Hb), reverse_snoc.
  - rewrite filter_cons_False by (cbn; congruence). by apply IH.
Qed.

(** A buyer that holds a seller keeps holding one, at a rank that does
    not grow. *)
Lemma step_trade_up s st st' b t r :
  Inv st → step s st st' →
  rd (buyer_matches st) b = Some t → t ≠ -1 →
  rd (buyer_final_prefs st) b = Some r →
  ∃ t' r', rd (buyer_matches st') b = Some t' ∧ t' ≠ -1 ∧
           rd (buyer_final_prefs st') b = Some r' ∧ r' <= r.
Proof.
  intros HI Hstep Hb Ht Hr.
  destruct Hstep as
    [ m Hm Hm1
    | c b0 r0 snc bfp bm sm Hm Hc Hb0 Hr0 Ht0 Wsnc Wbfp Wbm Wsm
    | c b0 r0 t0 rt snc bfp bm sm sm' Hm Hc Hb0 Hr0 Ht0 Ht1 Hrt Hlt Wsnc Wbfp Wbm Wsm Wsm'
    | c b0 r0 t0 rt snc Hm Hc Hb0 Hr0 Ht0 Ht1 Hrt Hlt Wsnc ];
    cbn [buyer_matches buyer_final_prefs].
  - exists t, r. repeat split; (done || lia).
  - destruct (decide (b = b0)) as [->|Hne]; [congruence|].
    exists t, r. rewrite (rd_wr_ne _ _ _ _ _ Wbm), (rd_wr_ne _ _ _ _ _ Wbfp) by done.
    repeat split; (done || lia).
  - pose proof (Inv_seller _ _ _ _ _ _ HI Hm) as Hsn.
    destruct (decide (b = b0)) as [->|Hne].
    + simplify_eq. exists s, r0.
      rewrite (rd_wr_eq _ _ _ _ Wbm), (rd_wr_eq _ _ _ _ Wbfp).
      repeat split; (done || lia).
    + exists t, r.
      rewrite (rd_wr_ne _ _ _ _ _ Wbm), (rd_wr_ne _ _ _ _ _ Wbfp) by done.
      repeat split; (done || lia).
  - exists t, r. repeat split; (done || lia).
Qed.


(** The whole loop never reads or writes outside an array, however
    many rounds it is given. *)
Lemma while_loop_no_fault fuel st :
  Inv st → while_loop n seller_prefs buyer_prefs fuel st ≠ Fault.
Proof using All.
  revert st. induction fuel as [|fuel IH]; intros st HI; cbn [while_loop];
    case_decide; try done.
  destruct (round_spec _ _ _ n_nonneg sellers_valid buyers_valid st HI)
    as (st1 & -> & HI1 & _). by apply IH.
Qed.

(** An unmatched buyer has the sentinel as its rank. *)
Lemma step_unmatched_rank s st st' :
  Inv st → step s st st' →
  (∀ b, rd (buyer_matches st) b = Some (-1) →
        rd (buyer_final_prefs st) b = Some (-1)) →
  ∀ b, rd (buyer_matches st') b = Some (-1) →
       rd (buyer_final_prefs st') b = Some (-1).
Proof.
  intros HI Hstep IH b.
  destruct Hstep as
    [ m Hm Hm1
    | c b0 r0 snc bfp bm sm Hm Hc Hb0 Hr0 Ht0 Wsnc Wbfp Wbm Wsm
    | c b0 r0 t0 rt snc bfp bm sm sm' Hm Hc Hb0 Hr0 Ht0 Ht1 Hrt Hlt Wsnc Wbfp Wbm Wsm Wsm'
    | c b0 r0 t0 rt snc Hm Hc Hb0 Hr0 Ht0 Ht1 Hrt Hlt Wsnc ];
    cbn [buyer_matches buyer_final_prefs]; [by apply IH| | |by apply IH];
    pose proof (Inv_seller _ _ _ _ _ _ HI Hm) as Hsn;
    rewrite (rd_wr _ _ _ _ _ Wbm), (rd_wr _ _ _ _ _ Wbfp);
    (case_decide; [intros; simplify_eq; lia|by apply IH]).
Qed.

End Along.

Lemma ex_after_first_visited :
  visited 2 ex_sp2 ex_bp2 (initial 2) (AtFor 1, ex_after_first).
Proof.
  eapply rtc_l; [by apply exec_enter|].
  eapply rtc_l; [|apply rtc_refl].
  apply (exec_body 2 ex_sp2 ex_bp2 0); [lia|by vm_compute].
Qed.

Lemma ex_tables_valid : valid_prefs 2 ex_sp2 ∧ valid_prefs 2 ex_bp2.
Proof. split; apply (bool_decide_unpack _); by vm_compute. Qed.

(** X1 (the two match arrays agree throughout).  On valid tables, in
    every configuration of the run, [seller_matches] and [buyer_matches]
    are inverse of each other on their matched cells, and
    [buyer_final_prefs[b]] is the sentinel exactly while buyer [b] holds
    no seller, and otherwise the one position of the seller it holds in
    [buyer_prefs[b]]. *)
Theorem matches_agree_throughout n sp bp cfg :
  0 <= n → valid_prefs n sp → valid_prefs n bp →
  visited n sp bp (initial n) cfg →
  (∀ s b, rd (seller_matches cfg.2) s = Some b → b ≠ -1 →
          rd (buyer_matches cfg.2) b = Some s) ∧
  (∀ b s, rd (buyer_matches cfg.2) b = Some s → s ≠ -1 →
          rd (seller_matches cfg.2) s = Some b) ∧
  (∀ b, rd (buyer_matches cfg.2) b = Some (-1) →
        rd (buyer_final_prefs cfg.2) b = Some (-1)) ∧
  (∀ b s, rd (buyer_matches cfg.2) b = Some s → s ≠ -1 →
          ∃ r, rd (buyer_final_prefs cfg.2) b = Some r ∧
               rd2 bp b r = Some s ∧ ∀ j, rd2 bp b j = Some s → j = r).
Proof.
  intros Hn Hsp Hbp Hvis.
  destruct (visited_Inv n sp bp Hn Hsp Hbp (initial n) cfg) as [HI _];
    [by apply initial_Inv|done|].
  split; [apply (inv_sm _ HI)|]. split; [apply (inv_bm _ HI)|]. split.
  - apply (visited_preserved n sp bp Hn Hsp Hbp
             (λ st, ∀ b, rd (buyer_matches st) b = Some (-1) →
                         rd (buyer_final_prefs st) b = Some (-1))
             (initial n) cfg); [by apply initial_Inv| | |done].
    + intros b. cbn. by rewrite !rd_replicate.
    + intros s st st' HI1 _ IH Hstep. by eapply step_unmatched_rank.
  - intros b s Hb Hs. destruct (inv_rank _ HI _ _ Hb Hs) as (r & Hr & Hrank).
    exists r. split; [done|]. split; [done|].
    intros j Hj. by eapply valid_prefs_inj.
Qed.

Lemma matches_agree_throughout_witness :
  (∀ s b, rd (seller_matches ex_after_first) s = Some b → b ≠ -1 →
          rd (buyer_matches ex_after_first) b = Some s) ∧
  (∀ b s, rd (buyer_matches ex_after_first) b = Some s → s ≠ -1 →
          rd (seller_matches ex_after_first) s = Some b) ∧
  (∀ b, rd (buyer_matches ex_after_first) b = Some (-1) →
        rd (buyer_final_prefs ex_after_first) b = Some (-1)) ∧
  (∀ b s, rd (buyer_matches ex_after_first) b = Some s → s ≠ -1 →
          ∃ r, rd (buyer_final_prefs ex_after_first) b = Some r ∧
               rd2 ex_bp2 b r = Some s ∧ ∀ j, rd2 ex_bp2 b j = Some s → j = r).
Proof.
  apply (matches_agree_throughout 2 ex_sp2 ex_bp2 (AtFor 1, ex_after_first));
    [lia|apply ex_tables_valid|apply ex_tables_valid|apply ex_after_first_visited].
Defined.

(** X2 ([bachelor_count] counts the unmatched sellers).  On valid
    tables, in every configuration of the run, [bachelor_count] is the
    number of cells of [seller_matches] that hold the sentinel, and lies
    between 0 and [n]. *)
Theorem bachelor_count_counts n sp bp cfg :
  0 <= n → valid_prefs n sp → valid_prefs n bp →
  visited n sp bp (initial n) cfg →
  bachelor_count cfg.2 = unmatched (seller_matches cfg.2) ∧
  0 <= bachelor_count cfg.2 <= n.
Proof.
  intros Hn Hsp Hbp Hvis.
  destruct (visited_Inv n sp bp Hn Hsp Hbp (initial n) cfg) as [HI _];
    [by apply initial_Inv|done|].
  split; [apply (inv_count _ HI)|]. rewrite (inv_count _ HI).
  pose proof (unmatched_nonneg (seller_matches cfg.2)).
  pose proof (unmatched_le_length (seller_matches cfg.2)) as Hle.
  rewrite (inv_len_sm _ HI) in Hle. lia.
Qed.

Lemma bachelor_count_counts_witness :
  bachelor_count ex_after_first = unmatched (seller_matches ex_after_first) ∧
  0 <= bachelor_count ex_after_first <= 2.
Proof.
  apply (bachelor_count_counts 2 ex_sp2 ex_bp2 (AtFor 1, ex_after_first));
    [lia|apply ex_tables_valid|apply ex_tables_valid|apply ex_after_first_visited].
Defined.



(** X4 (buyers only trade up).  On valid tables, a buyer that holds a
    seller in some configuration of the run holds a seller in every later
    configuration, and the rank it records for it never grows. *)
Theorem buyers_trade_up n sp bp cfg cfg' b t r :
  0 <= n → valid_prefs n sp → valid_prefs n bp →
  visited n sp bp (initial n) cfg →
  rtc (exec n sp bp) cfg cfg' →
  rd (buyer_matches cfg.2) b = Some t → t ≠ -1 →
  rd (buyer_final_prefs cfg.2) b = Some r →
  ∃ t' r', rd (buyer_matches cfg'.2) b = Some t' ∧ t' ≠ -1 ∧
           rd (buyer_final_prefs cfg'.2) b = Some r' ∧ r' <= r.
Proof.
  intros Hn Hsp Hbp Hvis Hrun.
  destruct (visited_Inv n sp bp Hn Hsp Hbp (initial n) cfg) as [HI Hpc];
    [by apply initial_Inv|done|].
  revert b t r.
  apply (run_related n sp bp Hn Hsp Hbp
    (λ st st', ∀ b t r,
       rd (buyer_matches st) b = Some t → t ≠ -1 →
       rd (buyer_final_prefs st) b = Some r →
       ∃ t' r', rd (buyer_matches st') b = Some t' ∧ t' ≠ -1 ∧
                rd (buyer_final_prefs st') b = Some r' ∧ r' <= r)
    cfg cfg'); try done.
  - intros st b t r Hb Ht Hr. exists t, r. repeat split; (done || lia).
  - intros st1 st2 st3 H12 H23 b t r Hb Ht Hr.
    destruct (H12 b t r Hb Ht Hr) as (t2 & r2 & Hb2 & Ht2 & Hr2 & Hle2).
    destruct (H23 b t2 r2 Hb2 Ht2 Hr2) as (t3 & r3 & Hb3 & Ht3 & Hr3 & Hle3).
    exists t3, r3. repeat split; (done || lia).
  - intros s st st' HI1 _ Hstep b t r. by eapply step_trade_up.
Qed.

Lemma ex_switch_valid : valid_prefs 2 ex_sp_switch ∧ valid_prefs 2 ex_bp_switch.
Proof. split; apply (bool_decide_unpack _); by vm_compute. Qed.

Lemma ex_switch_first_visited :
  visited 2 ex_sp_switch ex_bp_switch (initial 2) (AtFor 1, ex_switch_first).
Proof.
  eapply rtc_l; [by apply exec_enter|].
  eapply rtc_l; [|apply rtc_refl].
  apply (exec_body 2 ex_sp_switch ex_bp_switch 0); [lia|by vm_compute].
Qed.

Lemma ex_switch_second_later :
  rtc (exec 2 ex_sp_switch ex_bp_switch)
    (AtFor 1, ex_switch_first) (AtFor 2, ex_switch_second).
Proof.
  apply rtc_once.
  apply (exec_body 2 ex_sp_switch ex_bp_switch 1); [lia|by vm_compute].
Qed.

(** Buyer 0 holds seller 0 at rank 1 after the first proposal; one
    iteration later it holds seller 1 at rank 0. *)
Lemma buyers_trade_up_witness :
  ∃ t' r', rd (buyer_matches ex_switch_second) 0 = Some t' ∧ t' ≠ -1 ∧
           rd (buyer_final_prefs ex_switch_second) 0 = Some r' ∧ r' <= 1.
Proof.
  apply (buyers_trade_up 2 ex_sp_switch ex_bp_switch (AtFor 1, ex_switch_first)
           (AtFor 2, ex_switch_second) 0 0 1);
    [lia|apply ex_switch_valid|apply ex_switch_valid|apply ex_switch_first_visited
    |apply ex_switch_second_later|reflexivity|lia|reflexivity].
Defined.

(** X5 (proposals follow the preference list).  On valid tables, in
    every configuration of the run, the buyers a seller has proposed to,
    oldest first, are exactly the first entries of its preference list,
    as many as its cursor says: no buyer is skipped and the cursor counts
    the proposals of the seller. *)
Theorem proposals_follow_preferences n sp bp cfg s c srow :
  0 <= n → valid_prefs n sp → valid_prefs n bp →
  visited n sp bp (initial n) cfg →
  rd (seller_next_choices cfg.2) s = Some c → rd sp s = Some srow →
  (λ p, p.2) <$> filter (λ p, p.1 = s) (proposals cfg.2)
  = reverse (take (Z.to_nat c) srow) ∧
  Z.of_nat (length (filter (λ p, p.1 = s) (proposals cfg.2))) = c.
Proof.
  intros Hn Hsp Hbp Hvis Hc Hsrow.
  destruct (visited_Inv n sp bp Hn Hsp Hbp (initial n) cfg) as [HI _];
    [by apply initial_Inv|done|].
  assert ((λ p, p.2) <$> filter (λ p, p.1 = s) (proposals cfg.2)
          = reverse (take (Z.to_nat c) srow)) as Heq.
  { revert s c srow Hc Hsrow.
    apply (visited_preserved n sp bp Hn Hsp Hbp
      (λ st, ∀ x c srow, rd (seller_next_choices st) x = Some c →
         rd sp x = Some srow →
         (λ p, p.2) <$> filter (λ p, p.1 = x) (proposals st)
         = reverse (take (Z.to_nat c) srow))
      (initial n) cfg); [by apply initial_Inv| | |done].
    - intros x c srow. cbn. rewrite rd_replicate.
      case_decide; intros; by simplify_eq.
    - intros x st st' HI1 _ IH Hstep. by eapply step_in_order. }
  split; [done|].
  apply (f_equal length) in Heq.
  rewrite length_fmap, length_reverse, length_take in Heq.
  destruct (valid_prefs_rd _ _ _ _ Hsp Hsrow) as [_ Hperm].
  pose proof (is_perm_length _ _ Hperm). pose proof (inv_cursor _ HI _ _ Hc). lia.
Qed.

Lemma proposals_follow_preferences_witness :
  (λ p, p.2) <$> filter (λ p, p.1 = 0) (proposals ex_after_first)
  = reverse (take (Z.to_nat 1) [1; 0]) ∧
  Z.of_nat (length (filter (λ p, p.1 = 0) (proposals ex_after_first))) = 1.
Proof.
  apply (proposals_follow_preferences 2 ex_sp2 ex_bp2 (AtFor 1, ex_after_first)
           0 1 [1; 0]);
    [lia|apply ex_tables_valid|apply ex_tables_valid|apply ex_after_first_visited
    |reflexivity|reflexivity].
Defined.

(** X6 (each seller ends with its last proposal).  On valid tables, when
    the loop has ended, every seller has made at least one proposal and
    is matched to the buyer it proposed to last, the entry of its list
    just before its cursor. *)
Theorem final_match_is_last_proposal n sp bp fuel junk :
  0 <= n → valid_prefs n sp → valid_prefs n bp → n * n <= Z.of_nat fuel →
  ∃ st, engine n sp bp fuel junk = Finished st ∧
    ∀ s, 0 <= s < n →
      ∃ c b, rd (seller_next_choices st) s = Some c ∧ 1 <= c <= n ∧
             rd (seller_matches st) s = Some b ∧
             rd2 sp s (c - 1) = Some b.
Proof.
  intros Hn Hsp Hbp Hfuel.
  destruct (engine_total n sp bp Hn Hsp Hbp fuel junk Hfuel)
    as (st & Hrun & HI & Hbc & _).
  exists st. split; [done|]. intros s Hs.
  destruct (rd_in_range (seller_matches st) s) as [b Hb].
  { rewrite (inv_len_sm _ HI). lia. }
  pose proof (final_seller n sp bp Hn Hsp Hbp st HI Hbc s b Hb) as Hb1.
  destruct (inv_last _ HI _ _ Hb Hb1) as (c & Hc & Hlast).
  exists c, b. split; [done|]. split; [|done].
  pose proof (inv_cursor _ HI _ _ Hc).
  destruct (valid_prefs_rd2 _ _ _ _ _ Hsp Hlast) as (_ & ? & _). lia.
Qed.

Lemma final_match_is_last_proposal_witness :
  ∃ st, engine 3 ex_sp3 ex_bp3 9 zeroed = Finished st ∧
    ∀ s, 0 <= s < 3 →
      ∃ c b, rd (seller_next_choices st) s = Some c ∧ 1 <= c <= 3 ∧
             rd (seller_matches st) s = Some b ∧
             rd2 ex_sp3 s (c - 1) = Some b.
Proof.
  apply (final_match_is_last_proposal 3 ex_sp3 ex_bp3 9 zeroed); [lia| | |lia].
  - apply (bool_decide_unpack _). vm_compute. exact I.
  - apply (bool_decide_unpack _). vm_compute. exact I.
Defined.

(** X7 (no access out of bounds).  On valid tables the loop never reads
    or writes outside an array, whatever number of rounds it is allowed:
    it either ends or is still running when the rounds are used up. *)
Theorem engine_never_faults n sp bp fuel junk :
  0 <= n → valid_prefs n sp → valid_prefs n bp →
  engine n sp bp fuel junk ≠ Fault.
Proof.
  intros Hn Hsp Hbp. unfold engine. rewrite init_state_any.
  apply while_loop_no_fault; try done. by apply initial_Inv.
Qed.

Lemma engine_never_faults_witness : engine 3 ex_sp3 ex_bp3 1 zeroed ≠ Fault.
Proof.
  apply (engine_never_faults 3 ex_sp3 ex_bp3 1 zeroed); [lia| |].
  - apply (bool_decide_unpack _). vm_compute. exact I.
  - apply (bool_decide_unpack _). vm_compute. exact I.
Defined.

(** X8 (uninitialised cells are never read).  The result of the engine
    does not depend on the contents the four arrays have when they are
    declared, whatever each of their cells holds: lines 59-64 write every
    cell before the loop reads one.  This holds for any [n] and any
    tables. *)
Theorem engine_ignores_junk n sp bp fuel junk junk' :
  engine n sp bp fuel junk = engine n sp bp fuel junk'.
Proof. unfold engine. by rewrite !init_state_any. Qed.

(** X9 (the rank scan keeps the last occurrence).  For any buyer row of
    [n] cells, valid or not, the scan of lines 81-85 does not fault; it
    returns the greatest position at which the seller occurs in the row,
    and when the seller does not occur it returns the rank it was started
    with, that is, the stale value of [curr_seller_rank]. *)
Theorem rank_scan_last_occurrence n bp b s r0 row :
  0 <= n → rd bp b = Some row → length row = Z.to_nat n →
  ∃ r, rank_scan n bp b s r0 = Some r ∧
       (((s ∉ row) ∧ r = r0) ∨
        (0 <= r < n ∧ rd row r = Some s ∧ ∀ j, r < j → rd row j ≠ Some s)).
Proof.
  intros Hn Hrow Hlen.
  destruct (for_range_inv
    (λ j r, ((∀ k, 0 <= k < j → rd row k ≠ Some s) ∧ r = r0) ∨
            (0 <= r < j ∧ rd row r = Some s ∧
             ∀ k, r < k < j → rd row k ≠ Some s))
    (rank_body bp b s) n r0) as (r & Hrun & Hfin); [done| | |].
  - left. split; [intros; lia|done].
  - intros j r Hj IH.
    destruct (rd_in_range row j) as [v Hv]; [lia|].
    unfold rank_body, rd2. rewrite Hrow. cbn [mbind option_bind].
    rewrite Hv. cbn [mbind option_bind]. eexists. split; [done|].
    case_decide as Hvs.
    + subst v. right. split; [lia|]. split; [done|]. intros; lia.
    + destruct IH as [[Hnone ->]|(Hr & Hrs & Hlater)].
      * left. split; [|done]. intros k Hk.
        destruct (decide (k = j)) as [->|]; [congruence|apply Hnone; lia].
      * right. split; [lia|]. split; [done|]. intros k Hk.
        destruct (decide (k = j)) as [->|]; [congruence|apply Hlater; lia].
  - exists r. split; [done|].
    destruct Hfin as [[Hnone ->]|(Hr & Hrs & Hlater)].
    + left. split; [|done]. intros [k Hk]%elem_of_rd.
      apply (Hnone k); [|done]. apply rd_bound in Hk. lia.
    + right. split; [done|]. split; [done|]. intros j Hj.
      destruct (decide (j < n)); [apply Hlater; lia|].
      rewrite rd_None; [done|lia].
Qed.

Lemma rank_scan_last_occurrence_witness :
  ∃ r, rank_scan 3 [[2; 1; 2]] 0 2 (-1) = Some r ∧
       (((2 ∉ [2; 1; 2]) ∧ r = -1) ∨
        (0 <= r < 3 ∧ rd [2; 1; 2] r = Some 2 ∧
         ∀ j, r < j → rd [2; 1; 2] j ≠ Some 2)).
Proof.
  apply (rank_scan_last_occurrence 3 [[2; 1; 2]] 0 2 (-1) [2; 1; 2]);
    [lia|reflexivity|reflexivity].
Defined.

(** X10 (the shuffle permutes any array).  For any array of [n] cells,
    whatever its contents, and values of [rand()] within [0, RAND_MAX],
    [shuffle_array] does not index outside the array, returns a
    permutation of the array it was given, and calls [rand()] exactly
    [n - 1] times (not at all when [n <= 1]). *)
Theorem shuffle_array_permutes RAND_MAX rand n a calls :
  (∀ k, 0 <= rand k <= RAND_MAX) → 0 <= n → length a = Z.to_nat n →
  ∃ a', shuffle_array RAND_MAX rand a n calls
        = Some (a', (calls + Z.to_nat (n - 1))%nat) ∧
        a' ≡ₚ a ∧ length a' = length a ∧ (n <= 1 → a' = a).
Proof.
  intros Hrand Hn Hlen.
  destruct (shuffle_array_spec RAND_MAX rand Hrand n Hn a calls Hlen)
    as (a' & Hrun & Hperm).
  exists a'. split; [done|]. split; [done|]. split; [by rewrite Hperm|].
  intros Hsmall. unfold shuffle_array in Hrun.
  rewrite for_range_nonpos in Hrun by lia. by simplify_eq.
Qed.

Lemma shuffle_array_permutes_witness :
  ∃ a', shuffle_array 32767 (λ _, 20000) [7; 7; 9] 3 0
        = Some (a', (0 + Z.to_nat (3 - 1))%nat) ∧
        a' ≡ₚ [7; 7; 9] ∧ length a' = length [7; 7; 9] ∧
        (3 <= 1 → a' = [7; 7; 9]).
Proof.
  apply (shuffle_array_permutes 32767 (λ _, 20000) 3 [7; 7; 9] 0);
    [intros k; lia|lia|reflexivity].
Defined.

(** X11 (every exchange can be drawn).  At iteration [i] of the shuffle
    of [n] cells, as long as [(n - i) * (n - i) <= RAND_MAX + 1], every
    cell [j] from [i] to [n - 1] is selected by some value of [rand()]:
    there is a value within [0, RAND_MAX] for which line 12 computes [j]
    and the iteration exchanges cells [i] and [j]. *)
Theorem shuffle_draws_every_cell RAND_MAX n i j :
  0 <= i → i <= j < n → (n - i) * (n - i) <= RAND_MAX + 1 →
  ∃ r, 0 <= r <= RAND_MAX ∧
    ∀ rand (a : list Z) calls x y,
      rand calls = r → rd a i = Some x → rd a j = Some y →
      shuffle_body RAND_MAX rand n i (a, calls)
      = Some (<[Z.to_nat i := y]> (<[Z.to_nat j := x]> a), S calls).
Proof.
  intros Hi Hj Hsq.
  assert (0 <= RAND_MAX) as HRM by nia.
  set (k := n - i) in *. assert (1 <= k) as Hk by lia.
  set (d := Z.quot RAND_MAX k + 1).
  assert (k <= d) as Hd.
  { unfold d. rewrite Z.quot_div_nonneg by lia.
    assert (k - 1 <= RAND_MAX / k); [|lia].
    apply Z.div_le_lower_bound; [lia|nia]. }
  assert ((k - 1) * d <= RAND_MAX) as Hmax.
  { unfold d in *. rewrite Z.quot_div_nonneg in * by lia.
    pose proof (Z.div_mod RAND_MAX k ltac:(lia)).
    pose proof (Z.mod_pos_bound RAND_MAX k ltac:(lia)). nia. }
  exists ((j - i) * d). split; [nia|].
  intros rand a calls x y Hr Hx Hy. unfold shuffle_body. cbn [fst snd].
  rewrite Hr. fold k. fold d.
  rewrite Z.quot_mul by lia. replace (i + (j - i)) with j by lia.
  rewrite Hy, Hx. cbn [mbind option_bind].
  pose proof (rd_bound _ _ _ Hx). pose proof (rd_bound _ _ _ Hy).
  rewrite (wr_in_range a j x) by lia. cbn [mbind option_bind].
  rewrite wr_in_range by (rewrite length_insert; lia). done.
Qed.

Lemma shuffle_draws_every_cell_witness :
  ∃ r, 0 <= r <= 32767 ∧
    ∀ rand (a : list Z) calls x y,
      rand calls = r → rd a 1 = Some x → rd a 3 = Some y →
      shuffle_body 32767 rand 5 1 (a, calls)
      = Some (<[Z.to_nat 1 := y]> (<[Z.to_nat 3 := x]> a), S calls).
Proof.
  apply (shuffle_draws_every_cell 32767 5 1 3); lia.
Defined.

(** X12 (the copy loop overwrites one row).  When row [i] of the table
    exists and has [n] cells, the loop of lines 48-50 does not fault,
    leaves the table with [randlist] as its row [i], and changes no other
    row. *)
Theorem copy_row_overwrites n rl i table row0 :
  0 <= n → length rl = Z.to_nat n →
  rd table i = Some row0 → length row0 = Z.to_nat n →
  ∃ table', copy_row n rl i table = Some table' ∧
            length table' = length table ∧
            rd table' i = Some rl ∧
            ∀ k, k ≠ i → rd table' k = rd table k.
Proof.
  intros Hn Lrl Hrow0 Lrow0.
  pose proof (rd_bound _ _ _ Hrow0) as Hi.
  pose proof (wr_in_range table i rl Hi) as Hwr.
  eexists. rewrite (copy_row_spec n Hn rl i table row0) by done.
  split; [done|]. split; [by rewrite length_insert|].
  split; [by apply (rd_wr_eq _ _ _ _ Hwr)|].
  intros k Hk. by apply (rd_wr_ne _ _ _ _ _ Hwr).
Qed.

Lemma copy_row_overwrites_witness :
  ∃ table', copy_row 2 [1; 0] 1 [[5; 5]; [6; 6]] = Some table' ∧
            length table' = length [[5; 5]; [6; 6]] ∧
            rd table' 1 = Some [1; 0] ∧
            ∀ k, k ≠ 1 → rd table' k = rd [[5; 5]; [6; 6]] k.
Proof.
  apply (copy_row_overwrites 2 [1; 0] 1 [[5; 5]; [6; 6]] [6; 6]);
    [lia|reflexivity|reflexivity|reflexivity].
Defined.

(** ** The program as a whole *)

(** Lines 112-132: on tables of [n] rows of [n] cells and [n] matches the
    report reads no cell out of bounds. *)
Lemma print_prefs_total who n prefs out :
  0 <= n → valid_prefs n prefs → ∃ out', print_prefs who n prefs out = Some out'.
Proof.
  intros Hn Hv.
  destruct (for_range_inv (λ _ _, True)
    (λ i out,
       out' ← for_range n (λ j o, v ← rd2 prefs i j; Some (o +:+ pretty v +:+ " "))
                (out +:+ who +:+ " " +:+ pretty i +:+ ": ");
       Some (out' +:+ newline)) n out) as (out' & Hrun & _); [done..| |by exists out'].
  intros i o Hi _.
  destruct (for_range_inv (λ _ _, True)
    (λ j o, v ← rd2 prefs i j; Some (o +:+ pretty v +:+ " ")) n
    (o +:+ who +:+ " " +:+ pretty i +:+ ": ")) as (o' & Hinner & _); [done..| |].
  - intros j o' Hj _. destruct (valid_prefs_cell n prefs i j Hv Hi Hj) as [v Hcell].
    rewrite Hcell. by eexists.
  - rewrite Hinner. by eexists.
Qed.

Lemma print_matches_total n (sm : list Z) out :
  0 <= n → length sm = Z.to_nat n → ∃ out', print_matches n sm out = Some out'.
Proof.
  intros Hn Hlen.
  destruct (for_range_inv (λ _ _, True)
    (λ i o, b ← rd sm i;
            Some (o +:+ "seller " +:+ pretty i +:+ " with buyer " +:+ pretty b
                    +:+ ";    ")) n out) as (out' & Hrun & _);
    [done..| |by exists out'].
  intros i o Hi _. destruct (rd_in_range sm i) as [b Hb]; [lia|].
  rewrite Hb. by eexists.
Qed.

Lemma report_total n sp bp st :
  0 <= n → valid_prefs n sp → valid_prefs n bp →
  length (seller_matches st) = Z.to_nat n →
  ∃ out, report n sp bp st = Some out.
Proof.
  intros Hn Hsp Hbp Hlen. unfold report.
  destruct (print_prefs_total "seller" n sp ("Pref lists - sellers" +:+ newline))
    as [o1 ->]; [done..|]. cbn [mbind option_bind].
  destruct (print_prefs_total "buyer" n bp (o1 +:+ "Pref lists - buyers" +:+ newline))
    as [o2 ->]; [done..|]. cbn [mbind option_bind].
  destruct (print_matches_total n (seller_matches st)
    (o2 +:+ "Matches, ordered by both proposers and receivers." +:+ newline))
    as [o3 ->]; [done..|]. cbn [mbind option_bind]. by eexists.
Qed.

(** The tables the generator returns are those the shuffles determine,
    whatever the arrays held when they were declared. *)
Lemma generate_tables_determined RAND_MAX rand n junk junk' g g' :
  (∀ k, 0 <= rand k <= RAND_MAX) → 0 <= n →
  generate RAND_MAX rand n junk = Some g →
  generate RAND_MAX rand n junk' = Some g' →
  g_seller_prefs g = g_seller_prefs g' ∧ g_buyer_prefs g = g_buyer_prefs g'.
Proof.
  intros Hrand Hn Hg Hg'.
  destruct (generate_spec RAND_MAX rand Hrand n Hn junk)
    as (g1 & Hg1 & Ls & Lb & Hrows). simplify_eq.
  destruct (generate_spec RAND_MAX rand Hrand n Hn junk')
    as (g2 & Hg2 & Ls' & Lb' & Hrows'). simplify_eq.
  assert (∀ (m : nat) i, 0 <= i < n → (Z.to_nat i <= m)%nat →
            rd (g_seller_prefs g) i = rd (g_seller_prefs g') i ∧
            rd (g_buyer_prefs g) i = rd (g_buyer_prefs g') i) as Hsame.
  { induction m as [|m IH]; intros i Hi Hm.
    - assert (i = 0) as -> by lia.
      destruct (Hrows 0 Hi) as (p1 & s1 & b1 & Hp1 & Hs1 & Hb1 & _ & _ & [c1 Hsh1] & [c2 Hsh2]).
      destruct (Hrows' 0 Hi) as (p2 & s2 & b2 & Hp2 & Hs2 & Hb2 & _ & _ & [c3 Hsh3] & [c4 Hsh4]).
      unfold buffer_before in Hp1, Hp2. rewrite decide_True in Hp1, Hp2 by done.
      simplify_eq. rewrite Hs1, Hs2, Hb1, Hb2. done.
    - destruct (decide (i = 0)) as [->|Hi0]; [apply IH; lia|].
      destruct (IH (i - 1)) as [_ Hprev]; [lia..|].
      destruct (Hrows i Hi) as (p1 & s1 & b1 & Hp1 & Hs1 & Hb1 & _ & _ & [c1 Hsh1] & [c2 Hsh2]).
      destruct (Hrows' i Hi) as (p2 & s2 & b2 & Hp2 & Hs2 & Hb2 & _ & _ & [c3 Hsh3] & [c4 Hsh4]).
      unfold buffer_before in Hp1, Hp2. rewrite decide_False in Hp1, Hp2 by done.
      rewrite Hprev in Hp1. simplify_eq. rewrite Hs1, Hs2, Hb1, Hb2. done. }
  split; apply rd_ext_length; try lia; intros i Hi;
    apply (Hsame (Z.to_nat i)); lia.
Qed.

(** X13 (a run with a valid size).  When the argument is read by [atoi]
    as some [n >= 0] and [rand()] stays within [0, RAND_MAX], the program
    does not fault anywhere: the generated tables are valid, the loop ends
    within [n * n] rounds, the report is printed and the exit status is 0;
    the matching reported is perfect and stable for the tables
    generated. *)
Theorem main_reports_stable_matching RAND_MAX rand fuel junk prog a :
  (∀ k, 0 <= rand k <= RAND_MAX) →
  0 <= atoi a → atoi a * atoi a <= Z.of_nat fuel →
  ∃ g st out,
    generate RAND_MAX rand (atoi a) junk = Some g ∧
    main RAND_MAX rand fuel junk [prog; a] = Exited 0 out (Some st) ∧
    report (atoi a) (g_seller_prefs g) (g_buyer_prefs g) st = Some out ∧
    valid_prefs (atoi a) (g_seller_prefs g) ∧
    valid_prefs (atoi a) (g_buyer_prefs g) ∧
    perfect_matching (atoi a) (seller_matches st) (buyer_matches st) ∧
    stable (g_seller_prefs g) (g_buyer_prefs g)
      (seller_matches st) (buyer_matches st).
Proof.
  intros Hrand Hn Hfuel. set (n := atoi a) in *.
  destruct (generate_spec RAND_MAX rand Hrand n Hn junk)
    as (g & Hg & Ls & Lb & Hrows).
  assert (valid_prefs n (g_seller_prefs g)) as Hsp.
  { split; [done|]. apply Forall_forall. intros row [i Hi]%elem_of_rd.
    pose proof (rd_bound _ _ _ Hi).
    destruct (Hrows i) as (_ & srow & _ & _ & ? & _ & ? & _); [lia|].
    by simplify_eq. }
  assert (valid_prefs n (g_buyer_prefs g)) as Hbp.
  { split; [done|]. apply Forall_forall. intros row [i Hi]%elem_of_rd.
    pose proof (rd_bound _ _ _ Hi).
    destruct (Hrows i) as (_ & _ & brow & _ & _ & ? & _ & ? & _); [lia|].
    by simplify_eq. }
  destruct (engine_total n _ _ Hn Hsp Hbp fuel junk Hfuel)
    as (st & Hrun & HI & Hbc & _).
  destruct (report_total n _ _ st Hn Hsp Hbp (inv_len_sm _ HI)) as [out Hout].
  exists g, st, out. split; [done|]. split.
  { unfold main. change (parse_args [prog; a]) with (Some n).
    unfold run. rewrite decide_False by lia. by rewrite Hg, Hrun, Hout. }
  split; [done|]. split; [done|]. split; [done|].
  split; [exact (final_perfect n _ _ Hn Hsp Hbp st HI Hbc)|].
  exact (final_stable n _ _ Hn Hsp Hbp st HI Hbc).
Qed.

Lemma main_reports_stable_matching_witness :
  ∃ g st out,
    generate 32767 (λ _, 20000) (atoi "3") zeroed = Some g ∧
    main 32767 (λ _, 20000) 9 zeroed ["./sm"; "3"]%string = Exited 0 out (Some st) ∧
    report (atoi "3") (g_seller_prefs g) (g_buyer_prefs g) st = Some out ∧
    valid_prefs (atoi "3") (g_seller_prefs g) ∧
    valid_prefs (atoi "3") (g_buyer_prefs g) ∧
    perfect_matching (atoi "3") (seller_matches st) (buyer_matches st) ∧
    stable (g_seller_prefs g) (g_buyer_prefs g)
      (seller_matches st) (buyer_matches st).
Proof.
  apply (main_reports_stable_matching 32767 (λ _, 20000) 9 zeroed "./sm" "3");
    [intros k; lia|by vm_compute|by vm_compute].
Defined.

(** X14 (the output does not depend on uninitialised memory).  For
    values of [rand()] within [0, RAND_MAX], what the program does (exit
    status, output, final state of the loop) is the same whatever each
    cell of each array holds when the arrays are declared: every cell is
    written before it is read, in the generator, in the loop and in the
    report. *)
Theorem main_ignores_junk RAND_MAX rand fuel junk junk' argv :
  (∀ k, 0 <= rand k <= RAND_MAX) →
  main RAND_MAX rand fuel junk argv = main RAND_MAX rand fuel junk' argv.
Proof.
  intros Hrand. unfold main. destruct (parse_args argv) as [n|]; [|done].
  unfold run. case_decide as Hn; [done|].
  destruct (generate_spec RAND_MAX rand Hrand n ltac:(lia) junk)
    as (g & Hg & _).
  destruct (generate_spec RAND_MAX rand Hrand n ltac:(lia) junk')
    as (g' & Hg' & _).
  destruct (generate_tables_determined RAND_MAX rand n junk junk' g g')
    as [Hsp Hbp]; [done|lia|done..|].
  rewrite Hg, Hg', Hsp, Hbp. unfold engine. by rewrite !init_state_any.
Qed.

Lemma main_ignores_junk_witness :
  main 32767 (λ _, 20000) 9 zeroed ["./sm"; "3"]%string
  = main 32767 (λ _, 20000) 9 scrambled ["./sm"; "3"]%string.
Proof.
  apply (main_ignores_junk 32767 (λ _, 20000) 9 zeroed scrambled
           ["./sm"; "3"]%string).
  intros k. lia.
Defined.

Lemma shuffle_loop_ext RAND_MAX rand rand' n k i (a : list Z) calls :
  (∀ m, (calls <= m < calls + k)%nat → rand m = rand' m) →
  for_loop k i (shuffle_body RAND_MAX rand n) (a, calls)
  = for_loop k i (shuffle_body RAND_MAX rand' n) (a, calls).
Proof.
  revert i a calls. induction k as [|k IH]; intros i a calls Hsame; [done|].
  cbn [for_loop].
  assert (shuffle_body RAND_MAX rand n i (a, calls)
          = shuffle_body RAND_MAX rand' n i (a, calls)) as ->.
  { unfold shuffle_body. cbn [fst snd]. by rewrite (Hsame calls) by lia. }
  destruct (shuffle_body RAND_MAX rand' n i (a, calls)) as [[a' c']|] eqn:Hbody;
    [|done].
  assert (c' = S calls) as ->.
  { unfold shuffle_body in Hbody. cbn [fst snd] in Hbody.
    repeat (match type of Hbody with
            | context [rd ?l ?j] => destruct (rd l j); cbn in Hbody; [|done]
            | context [wr ?l ?j ?v] => destruct (wr l j v); cbn in Hbody; [|done]
            end).
    by simplify_eq. }
  apply IH. intros m Hm. apply Hsame. lia.
Qed.

(** X15 (a shuffle uses its own draws only).  One call of
    [shuffle_array] started at the [calls]-th call of [rand()] depends on
    the [n - 1] values returned from there on and on nothing else:
    two sources of randomness that agree on these values give the same
    result, fault included. *)
Theorem shuffle_array_uses_its_draws RAND_MAX rand rand' n a calls :
  (∀ m, (calls <= m < calls + Z.to_nat (n - 1))%nat → rand m = rand' m) →
  shuffle_array RAND_MAX rand a n calls = shuffle_array RAND_MAX rand' a n calls.
Proof. intros Hsame. by apply shuffle_loop_ext. Qed.

Lemma shuffle_array_uses_its_draws_witness :
  shuffle_array 32767 (λ m, if decide (m < 2)%nat then 20000 else 7) [0; 1; 2] 3 0
  = shuffle_array 32767 (λ _, 20000) [0; 1; 2] 3 0.
Proof.
  apply (shuffle_array_uses_its_draws 32767
           (λ m, if decide (m < 2)%nat then 20000 else 7) (λ _, 20000) 3 [0; 1; 2] 0).
  intros m Hm. simpl in Hm. rewrite decide_True by lia. reflexivity.
Defined.
